(** * A shallow embedding of [src/utils/unzipper.ts]

    The class [Unzipper] reads a ZIP archive into a Node.js [Buffer], looks
    for the End-Of-Central-Directory record, and either walks the central
    directory or, when no such record is found, scans the buffer for local
    file headers.  Every entry carries its name, a directory flag and a
    closure that decodes the payload on demand.

    JavaScript numbers are modelled by [Z]: every quantity computed by the
    constructor is a sum of a handful of unsigned 16- and 32-bit fields and
    small constants, hence an integer far below 2^53, where double
    arithmetic is exact.  JavaScript strings are modelled by [string], read
    as the UTF-8 encoding of the text. *)

From Stdlib Require Import ZArith List String Ascii Bool Lia.
From Stdlib.Strings Require Import Byte.
From Stdlib Require Import DecimalN DecimalString Sorted.
Import ListNotations.
Local Open Scope Z_scope.

(** ** Exceptions and completions *)

(** The exceptions the code can raise: [RangeError] is what the
    [Buffer.readUInt*LE] accessors throw on an offset outside the buffer,
    [Error] is the plain [new Error(message)] of [getData]. *)
Inductive exn : Type :=
| RangeError
| Error (message : string).

(** A call either returns a value or throws. *)
Inductive completion (A : Type) : Type :=
| Ret (a : A)
| Throw (e : exn).
Arguments Ret {A} a.
Arguments Throw {A} e.

Definition bind {A B : Type} (c : completion A) (k : A -> completion B)
  : completion B :=
  match c with
  | Ret a => k a
  | Throw e => Throw e
  end.

Notation "x <- c ;; k" := (bind c (fun x => k))
  (at level 61, c at next level, right associativity).

(** What one run of a loop body asks the loop to do next.  [Again s] covers
    both falling off the end of the body and [continue]: in either case the
    loop condition is evaluated again, on the state [s]. *)
Inductive loop_ctl (St : Type) : Type :=
| Break
| Again (s : St).
Arguments Break {St}.
Arguments Again {St} s.

(** ** The Node.js [Buffer] primitives used by the class *)

Definition byteVal (b : byte) : Z := Z.of_N (Byte.to_N b).

Module Buffer.

Definition t : Type := list byte.

Definition length (buf : t) : Z := Z.of_nat (List.length buf).

(** [buf[i]]: [undefined] (here [None]) when [i] is not an index. *)
Definition get (buf : t) (i : Z) : option Z :=
  if i <? 0 then None else option_map byteVal (nth_error buf (Z.to_nat i)).

(** [buf[i] === v] *)
Definition byteIs (buf : t) (i v : Z) : bool :=
  match get buf i with
  | Some b => b =? v
  | None => false
  end.

(** [buf.readUInt16LE(offset)]: throws unless both bytes exist. *)
Definition readUInt16LE (buf : t) (offset : Z) : completion Z :=
  match get buf offset, get buf (offset + 1) with
  | Some first, Some last => Ret (first + last * 2 ^ 8)
  | _, _ => Throw RangeError
  end.

(** [buf.readUInt32LE(offset)]: throws unless the four bytes exist (which
    they do as soon as the first and the last one do). *)
Definition readUInt32LE (buf : t) (offset : Z) : completion Z :=
  match get buf offset, get buf (offset + 1),
        get buf (offset + 2), get buf (offset + 3) with
  | Some first, Some b1, Some b2, Some last =>
      Ret (first + b1 * 2 ^ 8 + b2 * 2 ^ 16 + last * 2 ^ 24)
  | _, _, _, _ => Throw RangeError
  end.

(** Index normalisation shared by [slice]: a negative index counts from
    the end, and the result is clamped to [0, length]. *)
Definition clampIndex (len i : Z) : Z :=
  if i <? 0 then Z.max (len + i) 0 else Z.min i len.

(** The bytes at positions [lo, hi) of the buffer, for [0 <= lo]. *)
Definition window (buf : t) (lo hi : Z) : t :=
  firstn (Z.to_nat (hi - lo)) (skipn (Z.to_nat lo) buf).

(** [buf.slice(start, end)]: never throws, both ends are clamped. *)
Definition slice (buf : t) (start end_ : Z) : t :=
  let len := length buf in
  window buf (clampIndex len start) (clampIndex len end_).

(** Does [pat] occur at the head of [l]? *)
Fixpoint startsWith (pat l : list byte) : bool :=
  match pat, l with
  | [], _ => true
  | p :: pat', b :: l' => Byte.eqb p b && startsWith pat' l'
  | _ :: _, [] => false
  end.

(** Does [pat] occur in [buf] at position [p]? *)
Definition occursAt (pat : list byte) (buf : t) (p : Z) : bool :=
  (0 <=? p) && startsWith pat (skipn (Z.to_nat p) buf).

(** Search [l], whose first byte sits at absolute position [pos]. *)
Fixpoint indexOfFrom (pat l : list byte) (pos : Z) : Z :=
  match l with
  | [] => -1
  | _ :: l' =>
      if startsWith pat l then pos else indexOfFrom pat l' (pos + 1)
  end.

(** [buf.indexOf(pat, byteOffset)] for a non-empty [pat]: the first
    position at or after [byteOffset] where [pat] occurs, or [-1].  A
    negative [byteOffset] counts from the end of the buffer. *)
Definition indexOf (buf : t) (pat : list byte) (byteOffset : Z) : Z :=
  let from :=
    if byteOffset <? 0 then Z.max (length buf + byteOffset) 0
    else byteOffset in
  indexOfFrom pat (skipn (Z.to_nat from) buf) from.

End Buffer.

(** ** The parts of the Node.js runtime the class calls into

    [utf8Slice] is the UTF-8 decoder behind [buf.toString('utf-8', ..)];
    [inflateRawSync], [inflateSync] and [gunzipSync] are the three
    decompressors of the [zlib] module (headerless deflate, zlib-wrapped,
    gzip-wrapped).  The development is parametric in all of them. *)
Class NodeRuntime : Type := {
  utf8Slice : list byte -> string;
  inflateRawSync : Buffer.t -> completion Buffer.t;
  inflateSync : Buffer.t -> completion Buffer.t;
  gunzipSync : Buffer.t -> completion Buffer.t
}.

(** The runtime [rt] with other zlib- and gzip-wrapped decompressors. *)
Definition withWrappers (rt : NodeRuntime)
    (zlibWrapped gzipWrapped : Buffer.t -> completion Buffer.t)
  : NodeRuntime :=
  {| utf8Slice := @utf8Slice rt;
     inflateRawSync := @inflateRawSync rt;
     inflateSync := zlibWrapped;
     gunzipSync := gzipWrapped |}.

(** ** JavaScript string helpers *)

(** [s.endsWith(searchString)], following ECMAScript: with
    [start = length s - length searchString], the answer is [false] when
    [start < 0] and otherwise whether the code units from [start] on are
    those of [searchString].  The comparison is made here on the UTF-8
    bytes, which gives the same answer for a search string of ASCII
    characters such as ["/"]: their bytes occur in no multi-byte
    sequence. *)
Definition endsWith (s searchString : string) : bool :=
  let len := String.length s in
  let searchLength := String.length searchString in
  (searchLength <=? len)%nat &&
  String.eqb (substring (len - searchLength)%nat searchLength s) searchString.

(** [`${n}`] for a non-negative integer [n]: its decimal digits. *)
Definition numberToString (n : Z) : string :=
  NilEmpty.string_of_uint (N.to_uint (Z.to_N n)).

(** ** The class [Unzipper] *)

(** [interface ZipEntry] (lines 4-8). *)
Record ZipEntry : Type := {
  entryName : string;
  isDirectory : bool;
  getData : unit -> completion Buffer.t
}.

(** The object built by the constructor: its only field is [entries]. *)
Record Unzipper : Type := {
  entries : list ZipEntry
}.

(** [getEntries()] (lines 126-128). *)
Definition getEntries (this : Unzipper) : list ZipEntry := entries this.

Definition maxCommentLength : Z := 0xFFFF.

(** The test of lines 22-27. *)
Definition isEocdSig (fileBuffer : Buffer.t) (i : Z) : bool :=
  Buffer.byteIs fileBuffer i 0x50 &&
  Buffer.byteIs fileBuffer (i + 1) 0x4B &&
  Buffer.byteIs fileBuffer (i + 2) 0x05 &&
  Buffer.byteIs fileBuffer (i + 3) 0x06.

(** The [for] loop of lines 21-31, run for at most [n] values of [i]; the
    result is the final value of [eocdPos]. *)
Fixpoint eocdLoop (n : nat) (fileBuffer : Buffer.t) (scanStart i : Z) : Z :=
  match n with
  | O => -1
  | S n' =>
      if i >=? scanStart then
        if isEocdSig fileBuffer i then i
        else eocdLoop n' fileBuffer scanStart (i - 1)
      else -1
  end.

Definition scanStartOf (fileBuffer : Buffer.t) : Z :=
  Z.max 0 (Buffer.length fileBuffer - (maxCommentLength + 22)).

(** Lines 16-31: [i] runs from [length - 22] down to [scanStart], which are
    [length - 22 - scanStart + 1] values when that number is positive and
    none otherwise. *)
Definition findEocd (fileBuffer : Buffer.t) : Z :=
  let scanStart := scanStartOf fileBuffer in
  eocdLoop (Z.to_nat (Buffer.length fileBuffer - 22 - scanStart + 1))
           fileBuffer scanStart (Buffer.length fileBuffer - 22).

Definition localSig : list byte := [x50; x4b; x03; x04].

Section Model.

Context {rt : NodeRuntime}.

(** [buf.toString('utf-8', start, end)]: never throws; the range is clamped
    to the buffer and an empty range gives the empty string. *)
Definition toString (buf : Buffer.t) (start end_ : Z) : string :=
  let len := Buffer.length buf in
  if (0 <? start) && (start >=? len) then EmptyString
  else
    let start := if start <=? 0 then 0 else start in
    let end_ := if end_ >? len then len else end_ in
    if end_ <=? start then EmptyString
    else utf8Slice (Buffer.window buf start end_).

(** The message of the [Error] thrown by [getData] (lines 74 and 116). *)
Definition unsupportedMessage (compressionMethod : Z) : string :=
  "Méthode de compression non supportée: " ++ numberToString compressionMethod.

(** The object literal pushed at lines 65-77 and again at lines 107-119;
    [getData] closes over [compressionMethod] and [compressedData]. *)
Definition mkEntry (fileName : string) (compressionMethod : Z)
    (compressedData : Buffer.t) : ZipEntry :=
  {| entryName := fileName;
     isDirectory := endsWith fileName "/";
     getData := fun _ =>
       if compressionMethod =? 8 then inflateRawSync compressedData
       else if compressionMethod =? 0 then Ret compressedData
       else Throw (Error (unsupportedMessage compressionMethod)) |}.

(** One run of the body of the [while] loop of lines 40-80, on the loop
    state [(cdCursor, entries)].  The [continue] of line 58 goes back to the
    loop condition without reaching line 79, so the cursor is unchanged. *)
Definition cdBody (fileBuffer : Buffer.t) (cdCursor : Z)
    (entries : list ZipEntry) : completion (loop_ctl (Z * list ZipEntry)) :=
  sig <- Buffer.readUInt32LE fileBuffer cdCursor ;;
  if negb (sig =? 0x02014b50) then Ret Break
  else
    compressionMethod <- Buffer.readUInt16LE fileBuffer (cdCursor + 10) ;;
    compressedSize <- Buffer.readUInt32LE fileBuffer (cdCursor + 20) ;;
    uncompressedSize <- Buffer.readUInt32LE fileBuffer (cdCursor + 24) ;;
    fileNameLength <- Buffer.readUInt16LE fileBuffer (cdCursor + 28) ;;
    extraFieldLength <- Buffer.readUInt16LE fileBuffer (cdCursor + 30) ;;
    fileCommentLength <- Buffer.readUInt16LE fileBuffer (cdCursor + 32) ;;
    relativeOffset <- Buffer.readUInt32LE fileBuffer (cdCursor + 42) ;;
    let fileName :=
      toString fileBuffer (cdCursor + 46) (cdCursor + 46 + fileNameLength) in
    let headerOffset := relativeOffset in
    lfSig <- Buffer.readUInt32LE fileBuffer headerOffset ;;
    if negb (lfSig =? 0x04034b50) then Ret (Again (cdCursor, entries))
    else
      lfFileNameLength <- Buffer.readUInt16LE fileBuffer (headerOffset + 26) ;;
      lfExtraFieldLength <- Buffer.readUInt16LE fileBuffer (headerOffset + 28) ;;
      let dataStart :=
        headerOffset + 30 + lfFileNameLength + lfExtraFieldLength in
      let compressedData :=
        Buffer.slice fileBuffer dataStart (dataStart + compressedSize) in
      Ret (Again
             (cdCursor + (46 + fileNameLength + extraFieldLength
                          + fileCommentLength),
              entries ++ [mkEntry fileName compressionMethod compressedData])).

(** The [while] loop of lines 40-80.  [None] means that [fuel] iterations
    were not enough to leave the loop. *)
Fixpoint cdLoop (fuel : nat) (fileBuffer : Buffer.t) (cdEnd cdCursor : Z)
    (entries : list ZipEntry) : option (completion (list ZipEntry)) :=
  match fuel with
  | O => None
  | S fuel' =>
      if cdCursor <? cdEnd then
        match cdBody fileBuffer cdCursor entries with
        | Throw e => Some (Throw e)
        | Ret Break => Some (Ret entries)
        | Ret (Again (cdCursor', entries')) =>
            cdLoop fuel' fileBuffer cdEnd cdCursor' entries'
        end
      else Some (Ret entries)
  end.

(** One run of the body of the [while] loop of lines 83-122, on the loop
    state [(currentOffset, entries)]. *)
Definition fallbackBody (fileBuffer : Buffer.t) (currentOffset : Z)
    (entries : list ZipEntry) : completion (loop_ctl (Z * list ZipEntry)) :=
  let signaturePos := Buffer.indexOf fileBuffer localSig currentOffset in
  if signaturePos =? -1 then Ret Break
  else
    let headerOffset := signaturePos in
    compressionMethod <- Buffer.readUInt16LE fileBuffer (headerOffset + 8) ;;
    compressedSize <- Buffer.readUInt32LE fileBuffer (headerOffset + 18) ;;
    uncompressedSize <- Buffer.readUInt32LE fileBuffer (headerOffset + 22) ;;
    fileNameLength <- Buffer.readUInt16LE fileBuffer (headerOffset + 26) ;;
    extraFieldLength <- Buffer.readUInt16LE fileBuffer (headerOffset + 28) ;;
    let fileNameStart := headerOffset + 30 in
    let fileName :=
      toString fileBuffer fileNameStart (fileNameStart + fileNameLength) in
    let dataStart := fileNameStart + fileNameLength + extraFieldLength in
    let compressedData :=
      Buffer.slice fileBuffer dataStart (dataStart + compressedSize) in
    Ret (Again
           (dataStart + compressedSize,
            entries ++ [mkEntry fileName compressionMethod compressedData])).

(** The [while] loop of lines 83-122. *)
Fixpoint fallbackLoop (fuel : nat) (fileBuffer : Buffer.t)
    (currentOffset : Z) (entries : list ZipEntry)
  : option (completion (list ZipEntry)) :=
  match fuel with
  | O => None
  | S fuel' =>
      if currentOffset <? Buffer.length fileBuffer - 4 then
        match fallbackBody fileBuffer currentOffset entries with
        | Throw e => Some (Throw e)
        | Ret Break => Some (Ret entries)
        | Ret (Again (currentOffset', entries')) =>
            fallbackLoop fuel' fileBuffer currentOffset' entries'
        end
      else Some (Ret entries)
  end.

(** Lines 16-123 of the constructor, on the buffer read at line 14;
    [this.entries] starts empty (line 11).  Each [while] loop may run for
    [fuel] iterations. *)
Definition parseEntries (fuel : nat) (fileBuffer : Buffer.t)
  : option (completion (list ZipEntry)) :=
  let eocdPos := findEocd fileBuffer in
  if negb (eocdPos =? -1) then
    match Buffer.readUInt32LE fileBuffer (eocdPos + 16) with
    | Throw e => Some (Throw e)
    | Ret cdOffset =>
        match Buffer.readUInt32LE fileBuffer (eocdPos + 12) with
        | Throw e => Some (Throw e)
        | Ret cdSize =>
            let cdEnd := cdOffset + cdSize in
            cdLoop fuel fileBuffer cdEnd cdOffset []
        end
    end
  else fallbackLoop fuel fileBuffer 0 [].

(** [new Unzipper(path)] once [fs.readFileSync(path)] has returned
    [fileBuffer]: [None] when the constructor is still running after [fuel]
    iterations, [Some (Throw e)] when it throws, [Some (Ret this)] when it
    returns. *)
Definition Unzipper_constructor (fuel : nat) (fileBuffer : Buffer.t)
  : option (completion Unzipper) :=
  match parseEntries fuel fileBuffer with
  | None => None
  | Some (Throw e) => Some (Throw e)
  | Some (Ret es) => Some (Ret {| entries := es |})
  end.

End Model.

(** ** Header fields as total functions

    The statements below name the fields of a header through total readers:
    [u16] and [u32] return what [readUInt16LE] and [readUInt32LE] return
    where these succeed (and 0 elsewhere; every statement that uses them
    also says that the header lies inside the buffer). *)

Definition u16 (buf : Buffer.t) (offset : Z) : Z :=
  match Buffer.readUInt16LE buf offset with
  | Ret v => v
  | Throw _ => 0
  end.

Definition u32 (buf : Buffer.t) (offset : Z) : Z :=
  match Buffer.readUInt32LE buf offset with
  | Ret v => v
  | Throw _ => 0
  end.

(** Does the four-byte little-endian word at [offset] exist and equal [sig]? *)
Definition hasSig (buf : Buffer.t) (offset sig : Z) : Prop :=
  Buffer.readUInt32LE buf offset = Ret sig.

Section Views.

Context {rt : NodeRuntime}.

(** The payload window announced by the local header at [headerOffset]. *)
Definition localPayloadStart (buf : Buffer.t) (headerOffset : Z) : Z :=
  headerOffset + 30 + u16 buf (headerOffset + 26) + u16 buf (headerOffset + 28).

Definition localPayloadEnd (buf : Buffer.t) (headerOffset : Z) : Z :=
  localPayloadStart buf headerOffset + u32 buf (headerOffset + 18).

(** The entry the fallback scan builds from the local header at
    [headerOffset]. *)
Definition localEntry (buf : Buffer.t) (headerOffset : Z) : ZipEntry :=
  mkEntry
    (toString buf (headerOffset + 30)
       (headerOffset + 30 + u16 buf (headerOffset + 26)))
    (u16 buf (headerOffset + 8))
    (Buffer.slice buf (localPayloadStart buf headerOffset)
       (localPayloadEnd buf headerOffset)).

(** The run of the fallback scan described in words: starting the search at
    [currentOffset], the headers found are [hs], each one at the first
    occurrence of the signature at or after the end of the previous
    payload, until the offset reaches [length - 4] or no signature is left. *)
Fixpoint fallbackChain (buf : Buffer.t) (currentOffset : Z) (hs : list Z)
  : Prop :=
  match hs with
  | [] =>
      ~ currentOffset < Buffer.length buf - 4 \/
      Buffer.indexOf buf localSig currentOffset = -1
  | h :: hs' =>
      currentOffset < Buffer.length buf - 4 /\
      Buffer.indexOf buf localSig currentOffset = h /\
      h <> -1 /\
      h + 30 <= Buffer.length buf /\
      fallbackChain buf (localPayloadEnd buf h) hs'
  end.

(** The directory record at [cdCursor] and the local header it points to
    both carry their signature and lie inside the buffer. *)
Definition survivingRecord (buf : Buffer.t) (cdCursor : Z) : Prop :=
  hasSig buf cdCursor 0x02014b50 /\
  0 <= cdCursor /\ cdCursor + 46 <= Buffer.length buf /\
  hasSig buf (u32 buf (cdCursor + 42)) 0x04034b50 /\
  u32 buf (cdCursor + 42) + 30 <= Buffer.length buf.

(** Payload start for the record at [cdCursor]: taken from the local header
    the record points to. *)
Definition dirPayloadStart (buf : Buffer.t) (cdCursor : Z) : Z :=
  let localHeaderOffset := u32 buf (cdCursor + 42) in
  localHeaderOffset + 30 + u16 buf (localHeaderOffset + 26)
  + u16 buf (localHeaderOffset + 28).

(** The entry the directory walk builds from the record at [cdCursor]. *)
Definition dirEntry (buf : Buffer.t) (cdCursor : Z) : ZipEntry :=
  mkEntry
    (toString buf (cdCursor + 46) (cdCursor + 46 + u16 buf (cdCursor + 28)))
    (u16 buf (cdCursor + 10))
    (Buffer.slice buf (dirPayloadStart buf cdCursor)
       (dirPayloadStart buf cdCursor + u32 buf (cdCursor + 20))).

(** The offset of the record that follows the one at [cdCursor]. *)
Definition nextRecord (buf : Buffer.t) (cdCursor : Z) : Z :=
  cdCursor + (46 + u16 buf (cdCursor + 28) + u16 buf (cdCursor + 30)
              + u16 buf (cdCursor + 32)).

(** A walk of the directory in which every record survives: starting at
    [cdCursor], the records visited are [cs], each one right after the
    previous one, until the cursor reaches [cdEnd] or the record signature
    is missing. *)
Fixpoint dirChain (buf : Buffer.t) (cdEnd cdCursor : Z) (cs : list Z)
  : Prop :=
  match cs with
  | [] =>
      ~ cdCursor < cdEnd \/
      (exists v, Buffer.readUInt32LE buf cdCursor = Ret v /\ v <> 0x02014b50)
  | c :: cs' =>
      cdCursor < cdEnd /\ c = cdCursor /\
      survivingRecord buf c /\
      dirChain buf cdEnd (nextRecord buf c) cs'
  end.

(** Where an entry of the result comes from: a record of the central
    directory, or a local header found by the fallback scan. *)
Inductive origin : Type :=
| FromDirectory (cdCursor : Z)
| FromLocal (headerOffset : Z).

(** The headers an origin refers to carry their signatures and lie inside
    the buffer. *)
Definition intact (buf : Buffer.t) (o : origin) : Prop :=
  match o with
  | FromDirectory cdCursor => survivingRecord buf cdCursor
  | FromLocal headerOffset =>
      Buffer.occursAt localSig buf headerOffset = true /\
      headerOffset + 30 <= Buffer.length buf
  end.

(** The compression method, payload start and compressed size the headers
    announce. *)
Definition methodOf (buf : Buffer.t) (o : origin) : Z :=
  match o with
  | FromDirectory cdCursor => u16 buf (cdCursor + 10)
  | FromLocal headerOffset => u16 buf (headerOffset + 8)
  end.

Definition payloadStartOf (buf : Buffer.t) (o : origin) : Z :=
  match o with
  | FromDirectory cdCursor => dirPayloadStart buf cdCursor
  | FromLocal headerOffset => localPayloadStart buf headerOffset
  end.

Definition compressedSizeOf (buf : Buffer.t) (o : origin) : Z :=
  match o with
  | FromDirectory cdCursor => u32 buf (cdCursor + 20)
  | FromLocal headerOffset => u32 buf (headerOffset + 18)
  end.

Definition nameOf (buf : Buffer.t) (o : origin) : string :=
  match o with
  | FromDirectory cdCursor =>
      toString buf (cdCursor + 46) (cdCursor + 46 + u16 buf (cdCursor + 28))
  | FromLocal headerOffset =>
      toString buf (headerOffset + 30)
        (headerOffset + 30 + u16 buf (headerOffset + 26))
  end.

(** The bytes captured by the entry's [getData]. *)
Definition compressedDataOf (buf : Buffer.t) (o : origin) : Buffer.t :=
  Buffer.slice buf (payloadStartOf buf o)
    (payloadStartOf buf o + compressedSizeOf buf o).

Definition entryOf (buf : Buffer.t) (o : origin) : ZipEntry :=
  match o with
  | FromDirectory cdCursor => dirEntry buf cdCursor
  | FromLocal headerOffset => localEntry buf headerOffset
  end.

Definition Produced (buf : Buffer.t) (e : ZipEntry) : Prop :=
  exists o, intact buf o /\ e = entryOf buf o.

(** The headers a run of the constructor goes through, in order: the
    records of the directory announced by the EOCD record when there is
    one, the local headers of the fallback scan otherwise. *)
Definition visited (buf : Buffer.t) (os : list origin) : Prop :=
  if findEocd buf =? -1 then
    exists hs, os = map FromLocal hs /\ fallbackChain buf 0 hs
  else
    let cdOffset := u32 buf (findEocd buf + 16) in
    let cdSize := u32 buf (findEocd buf + 12) in
    exists cs,
      os = map FromDirectory cs /\
      dirChain buf (cdOffset + cdSize) cdOffset cs.

End Views.

(** ** Archives for the worked examples *)

Definition byteOfZ (z : Z) : byte :=
  match Byte.of_N (Z.to_N (z mod 256)) with
  | Some b => b
  | None => x00
  end.

Definition le16 (n : Z) : list byte := [byteOfZ n; byteOfZ (n / 2 ^ 8)].

Definition le32 (n : Z) : list byte :=
  [byteOfZ n; byteOfZ (n / 2 ^ 8); byteOfZ (n / 2 ^ 16); byteOfZ (n / 2 ^ 24)].

Definition ascii_bytes (s : string) : list byte := list_byte_of_string s.

(** A local file header (30 bytes, then name and extra field). *)
Definition localHeader (method compressedSize uncompressedSize : Z)
    (name : string) (extra : list byte) : list byte :=
  localSig ++ le16 20 ++ le16 0 ++ le16 method ++ le16 0 ++ le16 0
  ++ le32 0 ++ le32 compressedSize ++ le32 uncompressedSize
  ++ le16 (Z.of_nat (String.length name))
  ++ le16 (Z.of_nat (List.length extra))
  ++ ascii_bytes name ++ extra.

(** A central directory record (46 bytes, then name, extra, comment). *)
Definition directoryRecord (method compressedSize uncompressedSize : Z)
    (name : string) (extra : list byte) (comment : string)
    (localHeaderOffset : Z) : list byte :=
  [x50; x4b; x01; x02] ++ le16 20 ++ le16 20 ++ le16 0 ++ le16 method
  ++ le16 0 ++ le16 0 ++ le32 0 ++ le32 compressedSize
  ++ le32 uncompressedSize
  ++ le16 (Z.of_nat (String.length name))
  ++ le16 (Z.of_nat (List.length extra))
  ++ le16 (Z.of_nat (String.length comment))
  ++ le16 0 ++ le16 0 ++ le32 0 ++ le32 localHeaderOffset
  ++ ascii_bytes name ++ extra ++ ascii_bytes comment.

(** An End-Of-Central-Directory record (22 bytes, then the comment). *)
Definition eocdRecord (count cdSize cdOffset : Z) (comment : string)
  : list byte :=
  [x50; x4b; x05; x06] ++ le16 0 ++ le16 0 ++ le16 count ++ le16 count
  ++ le32 cdSize ++ le32 cdOffset
  ++ le16 (Z.of_nat (String.length comment)) ++ ascii_bytes comment.

(** A raw deflate stream made of one final stored block. *)
Definition storedBlock (data : list byte) : list byte :=
  let len := Z.of_nat (List.length data) in
  [x01] ++ le16 len ++ le16 (0xFFFF - len) ++ data.

(** A runtime for the examples: names are decoded byte for byte (which is
    what UTF-8 decoding does on well-formed input, strings being kept in
    UTF-8), and the decompressors understand a stream that consists of one
    final stored block, in its raw form only. *)
Definition sampleInflateRaw (data : Buffer.t) : completion Buffer.t :=
  match data with
  | hdr :: l0 :: l1 :: n0 :: n1 :: rest =>
      let len := byteVal l0 + byteVal l1 * 2 ^ 8 in
      let nlen := byteVal n0 + byteVal n1 * 2 ^ 8 in
      if (byteVal hdr =? 1) && (len + nlen =? 0xFFFF)
         && (len =? Z.of_nat (List.length rest))
      then Ret rest
      else Throw (Error "invalid stored block lengths")
  | _ => Throw (Error "unexpected end of file")
  end.

#[global] Instance sampleRuntime : NodeRuntime := {|
  utf8Slice := string_of_list_byte;
  inflateRawSync := sampleInflateRaw;
  inflateSync := fun _ => Throw (Error "incorrect header check");
  gunzipSync := fun _ => Throw (Error "incorrect header check")
|}.

(** The three-entry archive of the specification's scenario: a directory,
    a stored file and a deflated file, with central directory and EOCD. *)
Definition scenarioLocals : list byte :=
  localHeader 0 0 0 "dir/" []
  ++ localHeader 0 5 5 "dir/a.txt" [] ++ ascii_bytes "hello"
  ++ localHeader 8 22 17 "dir/b.txt" []
  ++ storedBlock (ascii_bytes "world world world").

Definition scenarioDirectory : list byte :=
  directoryRecord 0 0 0 "dir/" [] "" 0
  ++ directoryRecord 0 5 5 "dir/a.txt" [] "" 34
  ++ directoryRecord 8 22 17 "dir/b.txt" [] "" 78.

Definition scenarioArchive : Buffer.t :=
  scenarioLocals ++ scenarioDirectory
  ++ eocdRecord 3 (Z.of_nat (List.length scenarioDirectory))
       (Z.of_nat (List.length scenarioLocals)) "".

(** A directory of two records: the first points at offset 4, in the middle
    of a local header, the second at the intact local header of ["a"]. *)
Definition skipLocals : list byte :=
  localHeader 0 2 2 "a" [] ++ ascii_bytes "hi".

Definition skipDirectory : list byte :=
  directoryRecord 0 0 0 "x" [] "" 4
  ++ directoryRecord 0 2 2 "a" [] "" 0.

Definition skipArchive : Buffer.t :=
  skipLocals ++ skipDirectory
  ++ eocdRecord 2 (Z.of_nat (List.length skipDirectory))
       (Z.of_nat (List.length skipLocals)) "".

(** The smallest archive with a dangling record: the directory sits at
    offset 0 and its only record points back at offset 0, where the bytes
    are those of the directory signature. *)
Definition loopArchive : Buffer.t :=
  directoryRecord 0 0 0 "x" [] "" 0 ++ eocdRecord 1 47 0 "".

(** No EOCD; one local header that announces 10 payload bytes where only 2
    are left in the file. *)
Definition truncatedArchive : Buffer.t :=
  localHeader 0 10 10 "a" [] ++ ascii_bytes "hi".

(** A complete archive whose only directory record announces 1000 payload
    bytes for a 2-byte payload. *)
Definition overlongDirectory : list byte :=
  directoryRecord 0 1000 1000 "a" [] "" 0.

Definition overlongArchive : Buffer.t :=
  skipLocals ++ overlongDirectory
  ++ eocdRecord 1 (Z.of_nat (List.length overlongDirectory))
       (Z.of_nat (List.length skipLocals)) "".

(** A complete archive with one stored entry and one entry whose
    compression method is the undefined code 99. *)
Definition method99Locals : list byte :=
  localHeader 0 2 2 "a" [] ++ ascii_bytes "hi"
  ++ localHeader 99 3 3 "b" [] ++ ascii_bytes "xyz".

Definition method99Directory : list byte :=
  directoryRecord 0 2 2 "a" [] "" 0
  ++ directoryRecord 99 3 3 "b" [] "" 33.

Definition method99Archive : Buffer.t :=
  method99Locals ++ method99Directory
  ++ eocdRecord 2 (Z.of_nat (List.length method99Directory))
       (Z.of_nat (List.length method99Locals)) "".




(** The scenario archive followed by a 9-byte archive comment. *)
Definition commentedArchive : Buffer.t :=
  scenarioLocals ++ scenarioDirectory
  ++ eocdRecord 3 (Z.of_nat (List.length scenarioDirectory))
       (Z.of_nat (List.length scenarioLocals)) "a comment".

(** ** Partial runs of the two loops *)

(** The fallback scan, started at [currentOffset], goes through the
    complete headers [hs] and then resumes its search at [currentOffset']. *)
Fixpoint fallbackReaches (buf : Buffer.t) (currentOffset : Z) (hs : list Z)
    (currentOffset' : Z) : Prop :=
  match hs with
  | [] => currentOffset' = currentOffset
  | h :: hs' =>
      currentOffset < Buffer.length buf - 4 /\
      Buffer.indexOf buf localSig currentOffset = h /\
      h <> -1 /\
      h + 30 <= Buffer.length buf /\
      fallbackReaches buf (localPayloadEnd buf h) hs' currentOffset'
  end.

(** The directory walk, started at [cdCursor], goes through the surviving
    records [cs] and then stands at [cdCursor']. *)
Fixpoint dirReaches (buf : Buffer.t) (cdEnd cdCursor : Z) (cs : list Z)
    (cdCursor' : Z) : Prop :=
  match cs with
  | [] => cdCursor' = cdCursor
  | c :: cs' =>
      cdCursor < cdEnd /\ c = cdCursor /\
      survivingRecord buf c /\
      dirReaches buf cdEnd (nextRecord buf c) cs' cdCursor'
  end.

(** What listing shows of an entry without calling [getData]. *)
Definition listed (e : ZipEntry) : string * bool :=
  (entryName e, isDirectory e).

(** The runtime [rt] with another [zlib] module. *)
Definition withZlib (rt : NodeRuntime)
    (raw zlibWrapped gzipWrapped : Buffer.t -> completion Buffer.t)
  : NodeRuntime :=
  {| utf8Slice := @utf8Slice rt;
     inflateRawSync := raw;
     inflateSync := zlibWrapped;
     gunzipSync := gzipWrapped |}.

(** Two outcomes of one iteration, and two outcomes of a loop, agree on
    what listing shows. *)
Definition sameStep
    (r r' : completion (loop_ctl (Z * list ZipEntry))) : Prop :=
  match r, r' with
  | Throw e, Throw e' => e = e'
  | Ret Break, Ret Break => True
  | Ret (Again (c, es)), Ret (Again (c', es')) =>
      c = c' /\ map listed es = map listed es'
  | _, _ => False
  end.

Definition sameResult (r r' : option (completion (list ZipEntry))) : Prop :=
  match r, r' with
  | None, None => True
  | Some (Throw e), Some (Throw e') => e = e'
  | Some (Ret es), Some (Ret es') => map listed es = map listed es'
  | _, _ => False
  end.

(** What listing shows of the outcome of the constructor. *)
Definition listingOf (r : option (completion Unzipper))
  : option (completion (list (string * bool))) :=
  match r with
  | None => None
  | Some (Throw e) => Some (Throw e)
  | Some (Ret u) => Some (Ret (map listed (getEntries u)))
  end.

(** Where the name of an entry starts and how long its header says it is. *)
Definition nameStartOf (o : origin) : Z :=
  match o with
  | FromDirectory cdCursor => cdCursor + 46
  | FromLocal headerOffset => headerOffset + 30
  end.

Definition nameLengthOf (buf : Buffer.t) (o : origin) : Z :=
  match o with
  | FromDirectory cdCursor => u16 buf (cdCursor + 28)
  | FromLocal headerOffset => u16 buf (headerOffset + 26)
  end.

(** ** A writer for archives

    The layout that the constructor reads, written out: the members' local
    headers and payloads, then one directory record per member, then the
    EOCD record with an empty comment. *)

Record member : Type := {
  mName : string;
  mMethod : Z;
  mData : list byte;
  mUncompressedSize : Z;
  mLocalExtra : list byte;
  mDirExtra : list byte;
  mComment : string
}.

Definition memberLocal (m : member) : list byte :=
  localHeader (mMethod m) (Buffer.length (mData m)) (mUncompressedSize m)
    (mName m) (mLocalExtra m)
  ++ mData m.

Definition memberRecord (m : member) (localHeaderOffset : Z) : list byte :=
  directoryRecord (mMethod m) (Buffer.length (mData m))
    (mUncompressedSize m) (mName m) (mDirExtra m) (mComment m)
    localHeaderOffset.

Fixpoint writeLocals (ms : list member) : list byte :=
  match ms with
  | [] => []
  | m :: ms' => memberLocal m ++ writeLocals ms'
  end.

Fixpoint writeDirectory (ms : list member) (localHeaderOffset : Z)
  : list byte :=
  match ms with
  | [] => []
  | m :: ms' =>
      memberRecord m localHeaderOffset
      ++ writeDirectory ms'
           (localHeaderOffset + Buffer.length (memberLocal m))
  end.

Definition writeArchive (ms : list member) : Buffer.t :=
  writeLocals ms ++ writeDirectory ms 0
  ++ eocdRecord (Z.of_nat (List.length ms))
       (Buffer.length (writeDirectory ms 0))
       (Buffer.length (writeLocals ms)) "".

(** The fixed parts of the two kinds of header, 30 and 46 bytes. *)
Definition localFixed (method compressedSize uncompressedSize
    nameLen extraLen : Z) : list byte :=
  localSig ++ le16 20 ++ le16 0 ++ le16 method ++ le16 0 ++ le16 0
  ++ le32 0 ++ le32 compressedSize ++ le32 uncompressedSize
  ++ le16 nameLen ++ le16 extraLen.

Definition recordFixed (method compressedSize uncompressedSize
    nameLen extraLen commentLen localHeaderOffset : Z) : list byte :=
  [x50; x4b; x01; x02] ++ le16 20 ++ le16 20 ++ le16 0 ++ le16 method
  ++ le16 0 ++ le16 0 ++ le32 0 ++ le32 compressedSize
  ++ le32 uncompressedSize
  ++ le16 nameLen ++ le16 extraLen ++ le16 commentLen
  ++ le16 0 ++ le16 0 ++ le32 0 ++ le32 localHeaderOffset.

(** The member's fields fit the widths the headers give them. *)
Definition memberFits (m : member) : Prop :=
  0 <= mMethod m < 2 ^ 16 /\
  Z.of_nat (String.length (mName m)) < 2 ^ 16 /\
  Buffer.length (mData m) < 2 ^ 32 /\
  Buffer.length (mLocalExtra m) < 2 ^ 16 /\
  Buffer.length (mDirExtra m) < 2 ^ 16 /\
  Z.of_nat (String.length (mComment m)) < 2 ^ 16.

(** The offsets of the members' directory records, the first one at [c]. *)
Fixpoint recordOffsets (ms : list member) (c : Z) : list Z :=
  match ms with
  | [] => []
  | m :: ms' => c :: recordOffsets ms' (c + Buffer.length (memberRecord m 0))
  end.

(** The offsets of the members' local headers, the first one at [h]. *)
Fixpoint localOffsets (ms : list member) (h : Z) : list Z :=
  match ms with
  | [] => []
  | m :: ms' => h :: localOffsets ms' (h + Buffer.length (memberLocal m))
  end.

Section Reading.

Context {rt : NodeRuntime}.

(** The name as [toString] gives it back: an empty range is not decoded. *)
Definition decodedName (name : string) : string :=
  match name with
  | EmptyString => EmptyString
  | String _ _ => utf8Slice (ascii_bytes name)
  end.

(** The entry expected for a member. *)
Definition memberEntry (m : member) : ZipEntry :=
  mkEntry (decodedName (mName m)) (mMethod m) (mData m).

End Reading.

(** Two members for the examples: a directory and a stored file whose
    payload begins with the bytes of a local-header signature, with extra
    fields and a comment. *)
Definition sampleMembers : list member :=
  [ {| mName := "docs/"; mMethod := 0; mData := [];
       mUncompressedSize := 0; mLocalExtra := []; mDirExtra := [x0a; x00];
       mComment := "" |};
    {| mName := "docs/readme.txt"; mMethod := 0;
       mData := [x50; x4b; x03; x04] ++ ascii_bytes " is how a header starts";
       mUncompressedSize := 27; mLocalExtra := [x55; x54; x01; x00];
       mDirExtra := []; mComment := "first" |} ].

(** A complete local header and payload followed by the first six bytes
    of another local header. *)
Definition cutArchive : Buffer.t :=
  skipLocals ++ [x50; x4b; x03; x04; x14; x00].

(** A complete archive whose only directory record carries the local
    header offset 5000, beyond the end of the file. *)
Definition outsideArchive : Buffer.t :=
  skipLocals ++ directoryRecord 0 2 2 "a" [] "" 5000
  ++ eocdRecord 1 47 33 "".

(** A local header and payload followed by an EOCD record that announces
    an empty directory. *)
Definition emptyDirectoryArchive : Buffer.t :=
  skipLocals ++ eocdRecord 0 0 33 "".

(** ** Classes of thrown objects

    The class a caller sees on a caught object ([e.constructor],
    [e.name]): [RangeError] for the objects thrown by the [Buffer] reads,
    [Error] for the objects made by [new Error(message)] at lines 74 and
    116, which is also the class of the objects [zlib] throws on a stream
    it cannot decode.  The source declares no error class of its own. *)
Inductive errorClass : Type :=
| RangeErrorClass
| ErrorClass.

Definition classOf (e : exn) : errorClass :=
  match e with
  | RangeError => RangeErrorClass
  | Error _ => ErrorClass
  end.

(** ** The EOCD signature as bytes

    [eocdSigAt buf i] says that the four bytes [50 4B 05 06] stand in the
    buffer at position [i]; it is stated on the bytes, not through the test
    the scan makes. *)
Definition eocdSig : list byte := [x50; x4b; x05; x06].

Definition eocdSigAt (buf : Buffer.t) (i : Z) : Prop :=
  exists pre post, buf = pre ++ eocdSig ++ post /\ Buffer.length pre = i.

(** A complete archive (local header and payload of ["a"], one directory
    record, EOCD record at offset 80) whose 22-byte archive comment begins
    with the bytes of the EOCD signature. *)
Definition hijackedPrefix : list byte :=
  skipLocals ++ directoryRecord 0 2 2 "a" [] "" 0.

Definition hijackedEocdRest : list byte :=
  le16 0 ++ le16 0 ++ le16 1 ++ le16 1 ++ le32 47 ++ le32 33 ++ le16 22.

Definition hijackedComment : list byte := eocdSig ++ repeat x00 18.

Definition hijackedArchive : Buffer.t :=
  hijackedPrefix ++ eocdSig ++ hijackedEocdRest ++ hijackedComment.

(** Two local headers without directory: a deflated entry whose stream is
    cut after three bytes, and an entry with the undefined method 99. *)
Definition mixedLocals : Buffer.t :=
  localHeader 8 3 3 "z" [] ++ ascii_bytes "xyz"
  ++ localHeader 99 3 3 "b" [] ++ ascii_bytes "xyz".

(** * Properties *)

(** ** Buffer accessors *)

Lemma byteVal_range (b : byte) : 0 <= byteVal b < 256.
Proof.
  unfold byteVal. pose proof (Byte.to_N_bounded b). lia.
Qed.

Lemma length_nonneg (buf : Buffer.t) : 0 <= Buffer.length buf.
Proof. unfold Buffer.length. lia. Qed.

Lemma get_Some (buf : Buffer.t) (i v : Z) :
  Buffer.get buf i = Some v ->
  0 <= i < Buffer.length buf /\ 0 <= v < 256.
Proof.
  unfold Buffer.get, Buffer.length.
  destruct (Z.ltb_spec i 0) as [Hneg | Hpos]; [discriminate |].
  destruct (nth_error buf (Z.to_nat i)) as [b |] eqn:Hnth; [| discriminate].
  simpl. intros [= <-].
  assert (Hlt : (Z.to_nat i < List.length buf)%nat).
  { apply nth_error_Some. congruence. }
  split; [lia | apply byteVal_range].
Qed.

Lemma get_in_range (buf : Buffer.t) (i : Z) :
  0 <= i < Buffer.length buf -> exists v, Buffer.get buf i = Some v.
Proof.
  unfold Buffer.get, Buffer.length. intros Hi.
  destruct (Z.ltb_spec i 0) as [Hneg | Hpos]; [lia |].
  destruct (nth_error buf (Z.to_nat i)) as [b |] eqn:Hnth.
  - exists (byteVal b). reflexivity.
  - apply nth_error_None in Hnth. lia.
Qed.

Lemma readUInt16LE_Ret (buf : Buffer.t) (offset v : Z) :
  Buffer.readUInt16LE buf offset = Ret v ->
  0 <= offset /\ offset + 2 <= Buffer.length buf /\ 0 <= v < 2 ^ 16.
Proof.
  unfold Buffer.readUInt16LE.
  destruct (Buffer.get buf offset) as [a |] eqn:Ha; [| discriminate].
  destruct (Buffer.get buf (offset + 1)) as [b |] eqn:Hb; [| discriminate].
  intros [= <-].
  apply get_Some in Ha. apply get_Some in Hb. lia.
Qed.

Lemma readUInt32LE_Ret (buf : Buffer.t) (offset v : Z) :
  Buffer.readUInt32LE buf offset = Ret v ->
  0 <= offset /\ offset + 4 <= Buffer.length buf /\ 0 <= v < 2 ^ 32.
Proof.
  unfold Buffer.readUInt32LE.
  destruct (Buffer.get buf offset) as [a |] eqn:Ha; [| discriminate].
  destruct (Buffer.get buf (offset + 1)) as [b |] eqn:Hb; [| discriminate].
  destruct (Buffer.get buf (offset + 2)) as [c |] eqn:Hc; [| discriminate].
  destruct (Buffer.get buf (offset + 3)) as [d |] eqn:Hd; [| discriminate].
  intros [= <-].
  apply get_Some in Ha. apply get_Some in Hb.
  apply get_Some in Hc. apply get_Some in Hd. lia.
Qed.

Lemma readUInt16LE_ok (buf : Buffer.t) (offset : Z) :
  0 <= offset -> offset + 2 <= Buffer.length buf ->
  Buffer.readUInt16LE buf offset = Ret (u16 buf offset).
Proof.
  intros H0 H2. unfold u16, Buffer.readUInt16LE.
  destruct (get_in_range buf offset) as [a ->]; [lia |].
  destruct (get_in_range buf (offset + 1)) as [b ->]; [lia |].
  reflexivity.
Qed.

Lemma readUInt32LE_ok (buf : Buffer.t) (offset : Z) :
  0 <= offset -> offset + 4 <= Buffer.length buf ->
  Buffer.readUInt32LE buf offset = Ret (u32 buf offset).
Proof.
  intros H0 H4. unfold u32, Buffer.readUInt32LE.
  destruct (get_in_range buf offset) as [a ->]; [lia |].
  destruct (get_in_range buf (offset + 1)) as [b ->]; [lia |].
  destruct (get_in_range buf (offset + 2)) as [c ->]; [lia |].
  destruct (get_in_range buf (offset + 3)) as [d ->]; [lia |].
  reflexivity.
Qed.

Lemma readUInt16LE_u16 (buf : Buffer.t) (offset v : Z) :
  Buffer.readUInt16LE buf offset = Ret v -> u16 buf offset = v.
Proof. unfold u16. intros ->. reflexivity. Qed.

Lemma readUInt32LE_u32 (buf : Buffer.t) (offset v : Z) :
  Buffer.readUInt32LE buf offset = Ret v -> u32 buf offset = v.
Proof. unfold u32. intros ->. reflexivity. Qed.

Lemma readUInt16LE_Throw (buf : Buffer.t) (offset : Z) (e : exn) :
  Buffer.readUInt16LE buf offset = Throw e -> e = RangeError.
Proof.
  unfold Buffer.readUInt16LE.
  destruct (Buffer.get buf offset); [| congruence].
  destruct (Buffer.get buf (offset + 1)); congruence.
Qed.

Lemma readUInt32LE_Throw (buf : Buffer.t) (offset : Z) (e : exn) :
  Buffer.readUInt32LE buf offset = Throw e -> e = RangeError.
Proof.
  unfold Buffer.readUInt32LE.
  destruct (Buffer.get buf offset); [| congruence].
  destruct (Buffer.get buf (offset + 1)); [| congruence].
  destruct (Buffer.get buf (offset + 2)); [| congruence].
  destruct (Buffer.get buf (offset + 3)); congruence.
Qed.

Lemma u16_range (buf : Buffer.t) (offset : Z) : 0 <= u16 buf offset < 2 ^ 16.
Proof.
  unfold u16.
  destruct (Buffer.readUInt16LE buf offset) as [v | e] eqn:Hr; [| lia].
  apply readUInt16LE_Ret in Hr. lia.
Qed.

Lemma u32_range (buf : Buffer.t) (offset : Z) : 0 <= u32 buf offset < 2 ^ 32.
Proof.
  unfold u32.
  destruct (Buffer.readUInt32LE buf offset) as [v | e] eqn:Hr; [| lia].
  apply readUInt32LE_Ret in Hr. lia.
Qed.

(** ** The loop bodies *)

Ltac step_read H :=
  match type of H with
  | context [bind ?c _] =>
      let v := fresh "v" in
      let e := fresh "e" in
      let E := fresh "E" in
      destruct c as [v | e] eqn:E; cbn [bind] in H; [| try discriminate H]
  end.

Section Properties.

Context {rt : NodeRuntime}.

(** A run of the directory body that asks for another iteration either took
    the [continue] of line 58, leaving cursor and entries as they were, or
    pushed the entry of a surviving record and advanced the cursor. *)
Lemma cdBody_Again (buf : Buffer.t) (c c' : Z) (es es' : list ZipEntry) :
  cdBody buf c es = Ret (Again (c', es')) ->
  (c' = c /\ es' = es /\
   hasSig buf c 0x02014b50 /\
   exists v, Buffer.readUInt32LE buf (u32 buf (c + 42)) = Ret v /\
             v <> 0x04034b50)
  \/
  (survivingRecord buf c /\
   c' = c + (46 + u16 buf (c + 28) + u16 buf (c + 30) + u16 buf (c + 32)) /\
   es' = es ++ [dirEntry buf c]).
Proof.
  unfold cdBody. intros H.
  step_read H.
  destruct (Z.eqb_spec v 0x02014b50) as [-> | Hsig]; cbn [negb] in H;
    [| discriminate H].
  do 7 step_read H.
  step_read H.
  pose proof (readUInt32LE_u32 _ _ _ E6) as Hrel.
  destruct (Z.eqb_spec v6 0x04034b50) as [-> | Hlf]; cbn [negb] in H.
  - right.
    do 2 step_read H.
    injection H as <- <-.
    pose proof (readUInt32LE_Ret _ _ _ E) as Hc.
    pose proof (readUInt32LE_Ret _ _ _ E6) as Hc6.
    pose proof (readUInt16LE_Ret _ _ _ E8) as Hh.
    pose proof (readUInt16LE_Ret _ _ _ E9) as Hh9.
    unfold survivingRecord, hasSig, dirEntry, dirPayloadStart.
    rewrite Hrel.
    rewrite (readUInt16LE_u16 _ _ _ E0), (readUInt32LE_u32 _ _ _ E1),
      (readUInt16LE_u16 _ _ _ E3), (readUInt16LE_u16 _ _ _ E4),
      (readUInt16LE_u16 _ _ _ E5), (readUInt16LE_u16 _ _ _ E8),
      (readUInt16LE_u16 _ _ _ E9).
    repeat split; try assumption; lia.
  - left. injection H as <- <-.
    repeat split; try assumption.
    exists v6. rewrite Hrel. split; assumption.
Qed.

(** ** [indexOf] *)

Lemma indexOfFrom_spec (pat l : list byte) (pos : Z) :
  (Buffer.indexOfFrom pat l pos = -1 /\
   forall k, Buffer.startsWith pat (skipn k l) = false \/
             (List.length l <= k)%nat)
  \/
  (exists k, (k < List.length l)%nat /\
     Buffer.indexOfFrom pat l pos = pos + Z.of_nat k /\
     Buffer.startsWith pat (skipn k l) = true /\
     forall j, (j < k)%nat -> Buffer.startsWith pat (skipn j l) = false).
Proof.
  revert pos. induction l as [| b l IH]; intros pos.
  - left. split; [reflexivity |]. intros k. right. simpl. lia.
  - cbn [Buffer.indexOfFrom].
    destruct (Buffer.startsWith pat (b :: l)) eqn:Hhead.
    + right. exists 0%nat. simpl List.length.
      repeat split; [lia | lia | exact Hhead | intros j Hj; lia].
    + destruct (IH (pos + 1)) as [[Hnone Hall] | (k & Hk & Hidx & Hat & Hbefore)].
      * left. split; [exact Hnone |].
        intros [| k]; [left; exact Hhead |].
        destruct (Hall k) as [Hk | Hk]; [left; exact Hk | right; simpl; lia].
      * right. exists (S k). simpl List.length.
        repeat split; [lia | lia | exact Hat |].
        intros [| j] Hj; [exact Hhead | apply Hbefore; lia].
Qed.

Lemma startsWith_nil (pat : list byte) :
  pat <> [] -> Buffer.startsWith pat [] = false.
Proof. destruct pat; [congruence | reflexivity]. Qed.

Lemma occursAt_range (pat : list byte) (buf : Buffer.t) (p : Z) :
  pat <> [] -> Buffer.occursAt pat buf p = true ->
  0 <= p < Buffer.length buf.
Proof.
  unfold Buffer.occursAt, Buffer.length. intros Hpat H.
  apply andb_true_iff in H. destruct H as [Hp Hs].
  apply Z.leb_le in Hp. split; [exact Hp |].
  destruct (Z.lt_ge_cases p (Z.of_nat (List.length buf))) as [Hlt | Hge];
    [exact Hlt |].
  rewrite skipn_all2 in Hs by lia.
  rewrite startsWith_nil in Hs by exact Hpat. discriminate.
Qed.

(** [indexOf] returns the first occurrence at or after a non-negative
    [byteOffset]. *)
Lemma indexOf_found (buf : Buffer.t) (pat : list byte) (from h : Z) :
  0 <= from -> Buffer.indexOf buf pat from = h -> h <> -1 ->
  from <= h < Buffer.length buf /\
  Buffer.occursAt pat buf h = true /\
  forall p, from <= p < h -> Buffer.occursAt pat buf p = false.
Proof.
  intros Hfrom Hidx Hh. unfold Buffer.indexOf in Hidx.
  destruct (Z.ltb_spec from 0) as [Hneg | _]; [lia |].
  destruct (indexOfFrom_spec pat (skipn (Z.to_nat from) buf) from)
    as [[Hnone _] | (k & Hk & Hres & Hat & Hbefore)]; [congruence |].
  rewrite Hres in Hidx. subst h.
  rewrite length_skipn in Hk. unfold Buffer.length.
  rewrite skipn_skipn in Hat.
  split; [lia |]. split.
  - unfold Buffer.occursAt.
    replace (Z.to_nat (from + Z.of_nat k)) with (k + Z.to_nat from)%nat by lia.
    rewrite Hat. destruct (Z.leb_spec 0 (from + Z.of_nat k)); [reflexivity | lia].
  - intros p Hp. unfold Buffer.occursAt.
    specialize (Hbefore (Z.to_nat (p - from))).
    rewrite skipn_skipn in Hbefore.
    replace (Z.to_nat (p - from) + Z.to_nat from)%nat with (Z.to_nat p)
      in Hbefore by lia.
    rewrite Hbefore by lia. apply andb_false_r.
Qed.

Lemma indexOf_none (buf : Buffer.t) (pat : list byte) (from : Z) :
  0 <= from -> pat <> [] ->
  (Buffer.indexOf buf pat from = -1 <->
   forall p, from <= p -> Buffer.occursAt pat buf p = false).
Proof.
  intros Hfrom Hpat. split.
  - intros Hidx p Hp. unfold Buffer.indexOf in Hidx.
    destruct (Z.ltb_spec from 0) as [Hneg | _]; [lia |].
    destruct (indexOfFrom_spec pat (skipn (Z.to_nat from) buf) from)
      as [[_ Hall] | (k & Hk & Hres & _)]; [| lia].
    unfold Buffer.occursAt.
    destruct (Hall (Z.to_nat (p - from))) as [Hs | Hlen].
    + rewrite skipn_skipn in Hs.
      replace (Z.to_nat (p - from) + Z.to_nat from)%nat with (Z.to_nat p)
        in Hs by lia.
      rewrite Hs. apply andb_false_r.
    + rewrite length_skipn in Hlen.
      rewrite skipn_all2 by lia.
      rewrite startsWith_nil by exact Hpat. apply andb_false_r.
  - intros Hall.
    destruct (Z.eq_dec (Buffer.indexOf buf pat from) (-1)) as [Heq | Hne];
      [exact Heq |].
    destruct (indexOf_found buf pat from _ Hfrom eq_refl Hne) as (Hr & Hat & _).
    rewrite Hall in Hat by lia. discriminate.
Qed.

Lemma localSig_nonempty : localSig <> [].
Proof. discriminate. Qed.

(** ** The fallback body *)

Lemma localPayloadEnd_lower (buf : Buffer.t) (h : Z) :
  h + 30 <= localPayloadStart buf h /\
  localPayloadStart buf h <= localPayloadEnd buf h.
Proof.
  unfold localPayloadEnd, localPayloadStart.
  pose proof (u16_range buf (h + 26)). pose proof (u16_range buf (h + 28)).
  pose proof (u32_range buf (h + 18)). lia.
Qed.

Lemma fallbackBody_Again (buf : Buffer.t) (cur cur' : Z)
    (es es' : list ZipEntry) :
  0 <= cur ->
  fallbackBody buf cur es = Ret (Again (cur', es')) ->
  exists h,
    Buffer.indexOf buf localSig cur = h /\ h <> -1 /\ cur <= h /\
    Buffer.occursAt localSig buf h = true /\
    h + 30 <= Buffer.length buf /\
    cur' = localPayloadEnd buf h /\
    es' = es ++ [localEntry buf h].
Proof.
  unfold fallbackBody. intros Hcur H.
  destruct (Z.eqb_spec (Buffer.indexOf buf localSig cur) (-1)) as [Heq | Hne];
    [discriminate H |].
  set (h := Buffer.indexOf buf localSig cur) in *.
  destruct (indexOf_found buf localSig cur h Hcur eq_refl Hne)
    as (Hrange & Hat & _).
  do 5 step_read H.
  injection H as <- <-.
  pose proof (readUInt16LE_Ret _ _ _ E3) as Hin.
  exists h. unfold localPayloadEnd, localPayloadStart, localEntry.
  unfold localPayloadEnd, localPayloadStart.
  rewrite (readUInt16LE_u16 _ _ _ E), (readUInt32LE_u32 _ _ _ E0),
    (readUInt16LE_u16 _ _ _ E2), (readUInt16LE_u16 _ _ _ E3).
  repeat split; try assumption; try reflexivity; lia.
Qed.

Lemma fallbackBody_Break (buf : Buffer.t) (cur : Z) (es : list ZipEntry) :
  fallbackBody buf cur es = Ret Break ->
  Buffer.indexOf buf localSig cur = -1.
Proof.
  unfold fallbackBody. intros H.
  destruct (Z.eqb_spec (Buffer.indexOf buf localSig cur) (-1)) as [Heq | Hne];
    [exact Heq |].
  do 5 step_read H. discriminate H.
Qed.

Lemma fallbackBody_Throw (buf : Buffer.t) (cur : Z) (es : list ZipEntry)
    (e : exn) :
  fallbackBody buf cur es = Throw e -> e = RangeError.
Proof.
  unfold fallbackBody. intros H.
  destruct (Buffer.indexOf buf localSig cur =? -1); [discriminate H |].
  repeat
    match type of H with
    | context [bind ?c _] =>
        let E := fresh "E" in
        destruct c eqn:E; cbn [bind] in H;
        [| injection H as <-;
           first [ exact (readUInt16LE_Throw _ _ _ E)
                 | exact (readUInt32LE_Throw _ _ _ E) ] ]
    end.
  discriminate H.
Qed.

Lemma cdBody_Throw (buf : Buffer.t) (c : Z) (es : list ZipEntry) (e : exn) :
  cdBody buf c es = Throw e -> e = RangeError.
Proof.
  unfold cdBody. intros H.
  repeat
    match type of H with
    | bind ?c _ = _ =>
        let E := fresh "E" in
        destruct c eqn:E; cbn [bind] in H;
        [| injection H as <-;
           first [ exact (readUInt16LE_Throw _ _ _ E)
                 | exact (readUInt32LE_Throw _ _ _ E) ] ]
    | (if negb ?b then _ else _) = _ =>
        destruct b; cbn [negb] in H; try discriminate H
    end.
  discriminate H.
Qed.

(** ** The loops *)

Lemma fallbackLoop_chain (buf : Buffer.t) (fuel : nat) :
  forall (cur : Z) (acc res : list ZipEntry),
    0 <= cur ->
    fallbackLoop fuel buf cur acc = Some (Ret res) ->
    exists hs,
      fallbackChain buf cur hs /\
      res = acc ++ map (localEntry buf) hs /\
      Forall (fun h => cur <= h) hs /\
      Forall (fun h => Buffer.occursAt localSig buf h = true /\
                       h + 30 <= Buffer.length buf) hs /\
      StronglySorted (fun h h' => localPayloadEnd buf h <= h') hs.
Proof.
  induction fuel as [| fuel IH]; intros cur acc res Hcur H;
    [discriminate H |].
  cbn [fallbackLoop] in H.
  destruct (Z.ltb_spec cur (Buffer.length buf - 4)) as [Hlt | Hge].
  - destruct (fallbackBody buf cur acc) as [[| [cur' acc']] | e] eqn:Hbody.
    + injection H as <-. exists []. simpl.
      rewrite app_nil_r.
      split; [right; exact (fallbackBody_Break _ _ _ Hbody) |].
      repeat split; constructor.
    + destruct (fallbackBody_Again _ _ _ _ _ Hcur Hbody)
        as (h & Hidx & Hne & Hle & Hat & Hin & -> & ->).
      pose proof (localPayloadEnd_lower buf h) as Hlow.
      assert (Hnext : 0 <= localPayloadEnd buf h) by lia.
      destruct (IH _ _ _ Hnext H)
        as (hs & Hchain & Hres & Hge & Hok & Hsorted).
      exists (h :: hs). cbn [fallbackChain map].
      split; [repeat split; assumption |].
      split; [rewrite Hres, <- app_assoc; reflexivity |].
      split.
      { constructor; [exact Hle |].
        eapply Forall_impl; [| exact Hge]. cbv beta. intros; lia. }
      split; [constructor; [split; assumption | exact Hok] |].
      constructor; assumption.
    + discriminate H.
  - injection H as <-. exists []. simpl. rewrite app_nil_r.
    split; [left; lia |]. repeat split; constructor.
Qed.

Lemma cdBody_Break (buf : Buffer.t) (c : Z) (es : list ZipEntry) :
  cdBody buf c es = Ret Break ->
  exists v, Buffer.readUInt32LE buf c = Ret v /\ v <> 0x02014b50.
Proof.
  unfold cdBody. intros H.
  step_read H.
  destruct (Z.eqb_spec v 0x02014b50) as [-> | Hsig]; cbn [negb] in H.
  - do 8 step_read H.
    destruct (negb (v6 =? 0x04034b50)); [discriminate H |].
    do 2 step_read H. discriminate H.
  - exists v. split; [reflexivity | exact Hsig].
Qed.

Lemma cdLoop_entries (buf : Buffer.t) (cdEnd : Z) (fuel : nat) :
  forall (c : Z) (acc res : list ZipEntry),
    cdLoop fuel buf cdEnd c acc = Some (Ret res) ->
    exists cs,
      dirChain buf cdEnd c cs /\
      res = acc ++ map (dirEntry buf) cs /\
      Forall (survivingRecord buf) cs.
Proof.
  induction fuel as [| fuel IH]; intros c acc res H; [discriminate H |].
  cbn [cdLoop] in H.
  destruct (Z.ltb_spec c cdEnd) as [Hlt | Hge].
  - destruct (cdBody buf c acc) as [[| [c' acc']] | e] eqn:Hbody.
    + injection H as <-. exists []. simpl. rewrite app_nil_r.
      split; [right; exact (cdBody_Break _ _ _ Hbody) |].
      split; [reflexivity | constructor].
    + destruct (cdBody_Again _ _ _ _ _ Hbody)
        as [(-> & -> & _) | (Hrec & -> & ->)].
      * exact (IH _ _ _ H).
      * destruct (IH _ _ _ H) as (cs & Hchain & Hres & Hall).
        exists (c :: cs). cbn [map dirChain].
        split; [repeat split; try assumption; apply Hrec |].
        split; [rewrite Hres, <- app_assoc; reflexivity |].
        constructor; assumption.
    + discriminate H.
  - injection H as <-. exists []. simpl. rewrite app_nil_r.
    split; [left; lia |]. split; [reflexivity | constructor].
Qed.

Lemma fallbackLoop_Throw (buf : Buffer.t) (fuel : nat) :
  forall (cur : Z) (acc : list ZipEntry) (e : exn),
    fallbackLoop fuel buf cur acc = Some (Throw e) -> e = RangeError.
Proof.
  induction fuel as [| fuel IH]; intros cur acc e H; [discriminate H |].
  cbn [fallbackLoop] in H.
  destruct (cur <? Buffer.length buf - 4); [| discriminate H].
  destruct (fallbackBody buf cur acc) as [[| [cur' acc']] | e'] eqn:Hbody.
  - discriminate H.
  - exact (IH _ _ _ H).
  - injection H as <-. exact (fallbackBody_Throw _ _ _ _ Hbody).
Qed.

Lemma cdLoop_Throw (buf : Buffer.t) (cdEnd : Z) (fuel : nat) :
  forall (c : Z) (acc : list ZipEntry) (e : exn),
    cdLoop fuel buf cdEnd c acc = Some (Throw e) -> e = RangeError.
Proof.
  induction fuel as [| fuel IH]; intros c acc e H; [discriminate H |].
  cbn [cdLoop] in H.
  destruct (c <? cdEnd); [| discriminate H].
  destruct (cdBody buf c acc) as [[| [c' acc']] | e'] eqn:Hbody.
  - discriminate H.
  - exact (IH _ _ _ H).
  - injection H as <-. exact (cdBody_Throw _ _ _ _ Hbody).
Qed.

(** ** [slice] *)

Lemma clampIndex_nonneg (len i : Z) :
  0 <= i -> Buffer.clampIndex len i = Z.min i len.
Proof.
  intros Hi. unfold Buffer.clampIndex.
  destruct (Z.ltb_spec i 0); [lia | reflexivity].
Qed.

(** For non-negative bounds [slice] returns the part of the requested range
    that lies inside the buffer. *)
Lemma slice_clamped (buf : Buffer.t) (start end_ : Z) :
  0 <= start -> 0 <= end_ ->
  Buffer.slice buf start end_ =
  Buffer.window buf (Z.min start (Buffer.length buf))
                    (Z.min end_ (Buffer.length buf)).
Proof.
  intros Hs He. unfold Buffer.slice.
  rewrite !clampIndex_nonneg by assumption. reflexivity.
Qed.

Lemma window_length (buf : Buffer.t) (lo hi : Z) :
  0 <= lo -> lo <= hi -> hi <= Buffer.length buf ->
  Buffer.length (Buffer.window buf lo hi) = hi - lo.
Proof.
  unfold Buffer.window, Buffer.length. intros H0 H1 H2.
  rewrite length_firstn, length_skipn. lia.
Qed.

Lemma window_get (buf : Buffer.t) (lo hi k : Z) :
  0 <= lo -> 0 <= k < hi - lo ->
  Buffer.get (Buffer.window buf lo hi) k = Buffer.get buf (lo + k).
Proof.
  unfold Buffer.window, Buffer.get. intros H0 Hk.
  destruct (Z.ltb_spec k 0); [lia |].
  destruct (Z.ltb_spec (lo + k) 0); [lia |].
  rewrite nth_error_firstn.
  destruct (Nat.ltb_spec (Z.to_nat k) (Z.to_nat (hi - lo))); [| lia].
  rewrite nth_error_skipn.
  replace (Z.to_nat lo + Z.to_nat k)%nat with (Z.to_nat (lo + k)) by lia.
  reflexivity.
Qed.

(** ** [endsWith] *)

Lemma string_length_append (p s : string) :
  String.length (p ++ s) = (String.length p + String.length s)%nat.
Proof.
  induction p as [| c p IH]; simpl; [reflexivity | rewrite IH; reflexivity].
Qed.

Lemma substring_all (s : string) : substring 0 (String.length s) s = s.
Proof.
  induction s as [| c s IH]; simpl; [reflexivity | rewrite IH; reflexivity].
Qed.

Lemma substring_append_right (p s : string) :
  substring (String.length p) (String.length s) (p ++ s) = s.
Proof.
  induction p as [| c p IH]; simpl; [apply substring_all | exact IH].
Qed.

Lemma substring_split (n : nat) :
  forall s : string,
    (n <= String.length s)%nat ->
    s = (substring 0 n s ++ substring n (String.length s - n) s)%string.
Proof.
  induction n as [| n IH]; intros s Hn.
  - rewrite Nat.sub_0_r, substring_all.
    destruct s; reflexivity.
  - destruct s as [| c s]; simpl in Hn; [lia |].
    simpl. f_equal. apply IH. lia.
Qed.

(** [endsWith] holds exactly of the strings that are some prefix followed by
    the searched string. *)
Lemma endsWith_spec (s suffix : string) :
  endsWith s suffix = true <-> exists p, s = (p ++ suffix)%string.
Proof.
  unfold endsWith. split.
  - intros H. apply andb_true_iff in H. destruct H as [Hlen Heq].
    apply Nat.leb_le in Hlen. apply String.eqb_eq in Heq.
    exists (substring 0 (String.length s - String.length suffix) s).
    pose proof (substring_split (String.length s - String.length suffix) s)
      as Hsplit.
    replace (String.length s - (String.length s - String.length suffix))%nat
      with (String.length suffix) in Hsplit by lia.
    rewrite Heq in Hsplit. apply Hsplit. lia.
  - intros [p ->]. rewrite string_length_append.
    apply andb_true_iff. split; [apply Nat.leb_le; lia |].
    replace (String.length p + String.length suffix - String.length suffix)%nat
      with (String.length p) by lia.
    rewrite substring_append_right. apply String.eqb_refl.
Qed.

(** ** The EOCD scan *)

Lemma eocdLoop_spec (buf : Buffer.t) (scanStart : Z) (n : nat) :
  forall i : Z,
    0 <= scanStart ->
    i - scanStart + 1 <= Z.of_nat n ->
    (eocdLoop n buf scanStart i = -1 /\
     forall j, scanStart <= j <= i -> isEocdSig buf j = false)
    \/
    (scanStart <= eocdLoop n buf scanStart i <= i /\
     isEocdSig buf (eocdLoop n buf scanStart i) = true /\
     forall j, eocdLoop n buf scanStart i < j <= i ->
               isEocdSig buf j = false).
Proof.
  induction n as [| n IH]; intros i Hs Hn.
  - left. split; [reflexivity | intros j Hj; lia].
  - cbn [eocdLoop].
    destruct (Z.geb_spec i scanStart) as [Hge | Hlt].
    + destruct (isEocdSig buf i) eqn:Hsig.
      * right. split; [lia |]. split; [exact Hsig | intros j Hj; lia].
      * destruct (IH (i - 1) Hs ltac:(lia)) as [[Hr Hall] | (Hr & Hat & Hall)].
        -- left. split; [exact Hr |]. intros j Hj.
           destruct (Z.eq_dec j i) as [-> | Hne]; [exact Hsig |].
           apply Hall. lia.
        -- right. split; [lia |]. split; [exact Hat |]. intros j Hj.
           destruct (Z.eq_dec j i) as [-> | Hne]; [exact Hsig |].
           apply Hall. lia.
    + left. split; [reflexivity | intros j Hj; lia].
Qed.

Lemma scanStartOf_nonneg (buf : Buffer.t) : 0 <= scanStartOf buf.
Proof. unfold scanStartOf. lia. Qed.

(** The scan returns the signature position nearest to the end of the
    buffer among the positions [scanStart .. length - 22], or [-1] when
    there is none. *)
Lemma findEocd_spec (buf : Buffer.t) :
  (findEocd buf = -1 /\
   forall j, scanStartOf buf <= j <= Buffer.length buf - 22 ->
             isEocdSig buf j = false)
  \/
  (scanStartOf buf <= findEocd buf <= Buffer.length buf - 22 /\
   isEocdSig buf (findEocd buf) = true /\
   forall j, findEocd buf < j <= Buffer.length buf - 22 ->
             isEocdSig buf j = false).
Proof.
  unfold findEocd.
  apply eocdLoop_spec; [apply scanStartOf_nonneg | lia].
Qed.

(** ** Where the entries of the result come from *)

Lemma entryOf_mkEntry (buf : Buffer.t) (o : origin) :
  entryOf buf o = mkEntry (nameOf buf o) (methodOf buf o) (compressedDataOf buf o).
Proof. destruct o; reflexivity. Qed.

Lemma constructor_Ret (fuel : nat) (buf : Buffer.t) (u : Unzipper) :
  Unzipper_constructor fuel buf = Some (Ret u) ->
  parseEntries fuel buf = Some (Ret (getEntries u)).
Proof.
  unfold Unzipper_constructor.
  destruct (parseEntries fuel buf) as [[es | e] |]; try discriminate.
  intros [= <-]. reflexivity.
Qed.

Lemma parseEntries_fallback (fuel : nat) (buf : Buffer.t) :
  findEocd buf = -1 ->
  parseEntries fuel buf = fallbackLoop fuel buf 0 [].
Proof.
  intros H. unfold parseEntries. rewrite H. reflexivity.
Qed.

(** What a returning run of the constructor has done: it went through the
    headers [os], all of them intact, and pushed their entries in that
    order. *)
Lemma constructor_visited (fuel : nat) (buf : Buffer.t) (u : Unzipper) :
  Unzipper_constructor fuel buf = Some (Ret u) ->
  exists os,
    visited buf os /\
    getEntries u = map (entryOf buf) os /\
    Forall (intact buf) os.
Proof.
  intros H. apply constructor_Ret in H. unfold visited.
  destruct (Z.eqb_spec (findEocd buf) (-1)) as [Heq | Hne].
  - rewrite (parseEntries_fallback _ _ Heq) in H.
    destruct (fallbackLoop_chain _ _ _ _ _ (Z.le_refl 0) H)
      as (hs & Hchain & Hres & _ & Hok & _).
    exists (map FromLocal hs).
    split; [exists hs; split; [reflexivity | exact Hchain] |].
    split; [rewrite Hres, map_map; reflexivity |].
    apply Forall_map. exact Hok.
  - unfold parseEntries in H.
    destruct (Z.eqb_spec (findEocd buf) (-1)) as [Heq | _]; [contradiction |].
    cbn [negb] in H.
    destruct (Buffer.readUInt32LE buf (findEocd buf + 16)) as [cdOffset | e]
      eqn:E16; [| discriminate H].
    destruct (Buffer.readUInt32LE buf (findEocd buf + 12)) as [cdSize | e]
      eqn:E12; [| discriminate H].
    rewrite (readUInt32LE_u32 _ _ _ E16), (readUInt32LE_u32 _ _ _ E12).
    destruct (cdLoop_entries _ _ _ _ _ _ H) as (cs & Hchain & Hres & Hall).
    exists (map FromDirectory cs).
    split; [exists cs; split; [reflexivity | exact Hchain] |].
    split; [rewrite Hres, map_map; reflexivity |].
    apply Forall_map. exact Hall.
Qed.

Lemma constructor_Produced (fuel : nat) (buf : Buffer.t) (u : Unzipper) :
  Unzipper_constructor fuel buf = Some (Ret u) ->
  Forall (Produced buf) (getEntries u).
Proof.
  intros H.
  destruct (constructor_visited _ _ _ H) as (os & _ & -> & Hall).
  apply Forall_map. eapply Forall_impl; [| exact Hall]. cbv beta.
  intros o Ho. exists o. split; [exact Ho | reflexivity].
Qed.

Lemma constructor_Throw (fuel : nat) (buf : Buffer.t) (e : exn) :
  Unzipper_constructor fuel buf = Some (Throw e) -> e = RangeError.
Proof.
  unfold Unzipper_constructor, parseEntries. intros H.
  destruct (negb (findEocd buf =? -1)).
  - destruct (Buffer.readUInt32LE buf (findEocd buf + 16)) as [cdOffset | e1]
      eqn:E1.
    + destruct (Buffer.readUInt32LE buf (findEocd buf + 12)) as [cdSize | e2]
        eqn:E2.
      * destruct (cdLoop fuel buf (cdOffset + cdSize) cdOffset [])
          as [[es | e3] |] eqn:E3; try discriminate H.
        injection H as <-. exact (cdLoop_Throw _ _ _ _ _ _ E3).
      * injection H as <-. exact (readUInt32LE_Throw _ _ _ E2).
    + injection H as <-. exact (readUInt32LE_Throw _ _ _ E1).
  - destruct (fallbackLoop fuel buf 0 []) as [[es | e3] |] eqn:E3;
      try discriminate H.
    injection H as <-. exact (fallbackLoop_Throw _ _ _ _ _ E3).
Qed.

(** ** Termination of the loops *)

(** The fallback scan leaves its loop: every iteration moves the offset
    forward by at least 30. *)
Lemma fallbackLoop_terminates (buf : Buffer.t) (fuel : nat) :
  forall (cur : Z) (acc : list ZipEntry),
    0 <= cur ->
    (Z.to_nat (Buffer.length buf - cur) < fuel)%nat ->
    exists r, fallbackLoop fuel buf cur acc = Some r.
Proof.
  induction fuel as [| fuel IH]; intros cur acc Hcur Hfuel; [lia |].
  cbn [fallbackLoop].
  destruct (Z.ltb_spec cur (Buffer.length buf - 4)) as [Hlt | Hge];
    [| eexists; reflexivity].
  destruct (fallbackBody buf cur acc) as [[| [cur' acc']] | e] eqn:Hbody;
    try (eexists; reflexivity).
  destruct (fallbackBody_Again _ _ _ _ _ Hcur Hbody)
    as (h & _ & _ & Hle & _ & _ & -> & _).
  pose proof (localPayloadEnd_lower buf h) as Hlow.
  apply IH; lia.
Qed.

(** An iteration of the directory walk that takes the [continue] of line 58
    is repeated for ever. *)
Lemma cdLoop_stuck (buf : Buffer.t) (cdEnd c : Z) (es : list ZipEntry) :
  c < cdEnd ->
  cdBody buf c es = Ret (Again (c, es)) ->
  forall fuel, cdLoop fuel buf cdEnd c es = None.
Proof.
  intros Hlt Hbody fuel. induction fuel as [| fuel IH]; [reflexivity |].
  cbn [cdLoop].
  destruct (Z.ltb_spec c cdEnd) as [_ | Hge]; [| lia].
  rewrite Hbody. exact IH.
Qed.

(** That [continue] is the only way for the directory walk not to leave
    its loop. *)
Lemma cdLoop_terminates_unless_stuck (buf : Buffer.t) (cdEnd : Z)
    (fuel : nat) :
  forall (c : Z) (acc : list ZipEntry),
    (Z.to_nat (cdEnd - c) < fuel)%nat ->
    (exists r, cdLoop fuel buf cdEnd c acc = Some r) \/
    (exists c' acc',
        c <= c' < cdEnd /\ cdBody buf c' acc' = Ret (Again (c', acc'))).
Proof.
  induction fuel as [| fuel IH]; intros c acc Hfuel; [lia |].
  cbn [cdLoop].
  destruct (Z.ltb_spec c cdEnd) as [Hlt | Hge];
    [| left; eexists; reflexivity].
  destruct (cdBody buf c acc) as [[| [c' acc']] | e] eqn:Hbody;
    try (left; eexists; reflexivity).
  destruct (cdBody_Again _ _ _ _ _ Hbody)
    as [(-> & -> & _) | (_ & -> & ->)].
  - right. exists c, acc. split; [lia | exact Hbody].
  - pose proof (u16_range buf (c + 28)).
    pose proof (u16_range buf (c + 30)).
    pose proof (u16_range buf (c + 32)).
    destruct (IH (c + (46 + u16 buf (c + 28) + u16 buf (c + 30)
                       + u16 buf (c + 32)))
                 (acc ++ [dirEntry buf c]) ltac:(lia))
      as [Hr | (c' & acc' & Hc' & Hb)].
    + left. exact Hr.
    + right. exists c', acc'. split; [lia | exact Hb].
Qed.

Lemma parseEntries_directory (fuel : nat) (buf : Buffer.t)
    (p cdOffset cdSize : Z) :
  findEocd buf = p -> p <> -1 ->
  Buffer.readUInt32LE buf (p + 16) = Ret cdOffset ->
  Buffer.readUInt32LE buf (p + 12) = Ret cdSize ->
  parseEntries fuel buf = cdLoop fuel buf (cdOffset + cdSize) cdOffset [].
Proof.
  intros Hp Hne H16 H12. unfold parseEntries. rewrite Hp.
  destruct (Z.eqb_spec p (-1)) as [Heq | _]; [contradiction |].
  cbn [negb]. rewrite H16, H12. reflexivity.
Qed.

Lemma constructor_None (fuel : nat) (buf : Buffer.t) :
  parseEntries fuel buf = None -> Unzipper_constructor fuel buf = None.
Proof. unfold Unzipper_constructor. intros ->. reflexivity. Qed.

(** The constructor returns or throws on every buffer on which the
    directory walk does not meet an iteration that leaves its state
    unchanged. *)
Lemma constructor_terminates_unless_stuck (buf : Buffer.t) :
  exists fuel0, forall fuel, (fuel0 <= fuel)%nat ->
    (exists r, Unzipper_constructor fuel buf = Some r) \/
    (exists c acc, cdBody buf c acc = Ret (Again (c, acc))).
Proof.
  exists (S (Z.to_nat (Buffer.length buf + 2 ^ 32))). intros fuel Hfuel.
  pose proof (length_nonneg buf) as Hlen.
  assert (Hlift : forall r,
            parseEntries fuel buf = Some r ->
            exists r', Unzipper_constructor fuel buf = Some r').
  { intros r Hr. unfold Unzipper_constructor. rewrite Hr.
    destruct r; eexists; reflexivity. }
  destruct (Z.eq_dec (findEocd buf) (-1)) as [Heq | Hne].
  - left.
    destruct (fallbackLoop_terminates buf fuel 0 [] (Z.le_refl 0)
                ltac:(lia)) as [r Hr].
    apply (Hlift r). rewrite (parseEntries_fallback _ _ Heq). exact Hr.
  - destruct (findEocd_spec buf) as [[Hr _] | (Hr & _)]; [contradiction |].
    pose proof (scanStartOf_nonneg buf) as Hs.
    pose proof (u32_range buf (findEocd buf + 16)) as H16.
    pose proof (u32_range buf (findEocd buf + 12)) as H12.
    destruct (cdLoop_terminates_unless_stuck buf
                (u32 buf (findEocd buf + 16) + u32 buf (findEocd buf + 12))
                fuel (u32 buf (findEocd buf + 16)) [] ltac:(lia))
      as [[r Hres] | (c & acc & _ & Hstuck)].
    + left. apply (Hlift r).
      rewrite (parseEntries_directory fuel buf (findEocd buf)
                 (u32 buf (findEocd buf + 16)) (u32 buf (findEocd buf + 12))
                 eq_refl Hne)
        by (apply readUInt32LE_ok; lia).
      exact Hres.
    + right. exists c, acc. exact Hstuck.
Qed.

(** ** From the headers to the result

    The converses of [cdBody_Again] and [fallbackBody_Again]: an iteration
    on intact headers pushes their entry, whatever the header fields say. *)

Lemma cdBody_surviving (buf : Buffer.t) (c : Z) (es : list ZipEntry) :
  survivingRecord buf c ->
  cdBody buf c es = Ret (Again (nextRecord buf c, es ++ [dirEntry buf c])).
Proof.
  intros (Hsig & Hc0 & Hc46 & Hlf & Hl30).
  pose proof (readUInt32LE_Ret _ _ _ Hlf) as Hoff.
  unfold hasSig in Hsig, Hlf. unfold cdBody.
  rewrite Hsig. cbn [bind]. cbn [Z.eqb Pos.eqb negb].
  rewrite (readUInt16LE_ok buf (c + 10)) by lia. cbn [bind].
  rewrite (readUInt32LE_ok buf (c + 20)) by lia. cbn [bind].
  rewrite (readUInt32LE_ok buf (c + 24)) by lia. cbn [bind].
  rewrite (readUInt16LE_ok buf (c + 28)) by lia. cbn [bind].
  rewrite (readUInt16LE_ok buf (c + 30)) by lia. cbn [bind].
  rewrite (readUInt16LE_ok buf (c + 32)) by lia. cbn [bind].
  rewrite (readUInt32LE_ok buf (c + 42)) by lia. cbn [bind].
  rewrite Hlf. cbn [bind]. cbn [Z.eqb Pos.eqb negb].
  rewrite (readUInt16LE_ok buf (u32 buf (c + 42) + 26)) by lia. cbn [bind].
  rewrite (readUInt16LE_ok buf (u32 buf (c + 42) + 28)) by lia. cbn [bind].
  reflexivity.
Qed.

Lemma fallbackBody_found (buf : Buffer.t) (cur h : Z) (es : list ZipEntry) :
  0 <= cur ->
  Buffer.indexOf buf localSig cur = h -> h <> -1 ->
  h + 30 <= Buffer.length buf ->
  fallbackBody buf cur es =
  Ret (Again (localPayloadEnd buf h, es ++ [localEntry buf h])).
Proof.
  intros Hcur Hidx Hne Hin.
  destruct (indexOf_found buf localSig cur h Hcur Hidx Hne) as (Hr & _ & _).
  unfold fallbackBody. rewrite Hidx.
  destruct (Z.eqb_spec h (-1)) as [Heq | _]; [contradiction |].
  rewrite (readUInt16LE_ok buf (h + 8)) by lia. cbn [bind].
  rewrite (readUInt32LE_ok buf (h + 18)) by lia. cbn [bind].
  rewrite (readUInt32LE_ok buf (h + 22)) by lia. cbn [bind].
  rewrite (readUInt16LE_ok buf (h + 26)) by lia. cbn [bind].
  rewrite (readUInt16LE_ok buf (h + 28)) by lia. cbn [bind].
  reflexivity.
Qed.

Lemma fallbackLoop_complete (buf : Buffer.t) :
  forall (hs : list Z) (cur : Z) (acc : list ZipEntry) (fuel : nat),
    0 <= cur ->
    fallbackChain buf cur hs ->
    (List.length hs < fuel)%nat ->
    fallbackLoop fuel buf cur acc =
    Some (Ret (acc ++ map (localEntry buf) hs)).
Proof.
  induction hs as [| h hs IH]; intros cur acc fuel Hcur Hchain Hfuel;
    (destruct fuel as [| fuel]; [simpl in Hfuel; lia |]);
    cbn [fallbackLoop fallbackChain map] in *.
  - rewrite app_nil_r.
    destruct (Z.ltb_spec cur (Buffer.length buf - 4)) as [Hlt | Hge];
      [| reflexivity].
    destruct Hchain as [Hno | Hidx]; [contradiction |].
    unfold fallbackBody. rewrite Hidx. reflexivity.
  - destruct Hchain as (Hlt & Hidx & Hne & Hin & Hrest).
    destruct (Z.ltb_spec cur (Buffer.length buf - 4)) as [_ | Hge]; [| lia].
    rewrite (fallbackBody_found _ _ _ _ Hcur Hidx Hne Hin).
    destruct (indexOf_found buf localSig cur h Hcur Hidx Hne) as (Hr & _ & _).
    pose proof (localPayloadEnd_lower buf h) as Hlow.
    rewrite (IH (localPayloadEnd buf h) (acc ++ [localEntry buf h]) fuel)
      by (try assumption; simpl in Hfuel; lia).
    rewrite <- app_assoc. reflexivity.
Qed.

Lemma cdLoop_complete (buf : Buffer.t) (cdEnd : Z) :
  forall (cs : list Z) (c : Z) (acc : list ZipEntry) (fuel : nat),
    dirChain buf cdEnd c cs ->
    (List.length cs < fuel)%nat ->
    cdLoop fuel buf cdEnd c acc = Some (Ret (acc ++ map (dirEntry buf) cs)).
Proof.
  induction cs as [| c0 cs IH]; intros c acc fuel Hchain Hfuel;
    (destruct fuel as [| fuel]; [simpl in Hfuel; lia |]);
    cbn [cdLoop dirChain map] in *.
  - rewrite app_nil_r.
    destruct (Z.ltb_spec c cdEnd) as [Hlt | Hge]; [| reflexivity].
    destruct Hchain as [Hno | (v & Hread & Hv)]; [contradiction |].
    unfold cdBody. rewrite Hread. cbn [bind].
    destruct (Z.eqb_spec v 0x02014b50) as [Heq | _]; [contradiction |].
    reflexivity.
  - destruct Hchain as (Hlt & -> & Hrec & Hrest).
    destruct (Z.ltb_spec c cdEnd) as [_ | Hge]; [| lia].
    rewrite (cdBody_surviving _ _ _ Hrec).
    rewrite (IH _ (acc ++ [dirEntry buf c]) fuel Hrest)
      by (simpl in Hfuel; lia).
    rewrite <- app_assoc. reflexivity.
Qed.

(** Whenever the headers [os] can be gone through, the constructor returns
    their entries. *)
Lemma constructor_complete (fuel : nat) (buf : Buffer.t) (os : list origin) :
  visited buf os ->
  (List.length os < fuel)%nat ->
  Unzipper_constructor fuel buf =
  Some (Ret {| entries := map (entryOf buf) os |}).
Proof.
  unfold visited, Unzipper_constructor. intros Hvis Hfuel.
  destruct (Z.eqb_spec (findEocd buf) (-1)) as [Heq | Hne].
  - destruct Hvis as (hs & -> & Hchain).
    rewrite length_map in Hfuel.
    rewrite (parseEntries_fallback _ _ Heq).
    rewrite (fallbackLoop_complete buf hs 0 [] fuel (Z.le_refl 0) Hchain Hfuel).
    rewrite map_map. reflexivity.
  - destruct Hvis as (cs & -> & Hchain).
    rewrite length_map in Hfuel.
    destruct (findEocd_spec buf) as [[Hr _] | (Hr & _)]; [contradiction |].
    pose proof (scanStartOf_nonneg buf) as Hs.
    rewrite (parseEntries_directory fuel buf (findEocd buf)
               (u32 buf (findEocd buf + 16)) (u32 buf (findEocd buf + 12))
               eq_refl Hne)
      by (apply readUInt32LE_ok; lia).
    rewrite (cdLoop_complete buf _ cs _ [] fuel Hchain Hfuel).
    rewrite map_map. reflexivity.
Qed.

(** ** The claims *)

(** C1.  The directory record at offset 33 of [skipArchive] points at
    offset 4, where there is no local-header signature; the record after
    it, at offset 80, is intact.  No entry is produced for the first
    record, but the walk does not move on to the second one: the iteration
    leaves cursor and entries as they were, and the constructor never
    returns, however many iterations it is given. *)
Theorem dangling_record_blocks_directory_walk :
  Buffer.readUInt32LE skipArchive 33 = Ret 0x02014b50 /\
  Buffer.readUInt32LE skipArchive (u32 skipArchive (33 + 42)) = Ret 20 /\
  cdBody skipArchive 33 [] = Ret (Again (33, [])) /\
  survivingRecord skipArchive 80 /\
  forall fuel, Unzipper_constructor fuel skipArchive = None.
Proof.
  assert (Hbody : cdBody skipArchive 33 [] = Ret (Again (33, [])))
    by (vm_compute; reflexivity).
  split; [vm_compute; reflexivity |].
  split; [vm_compute; reflexivity |].
  split; [exact Hbody |].
  split.
  - unfold survivingRecord, hasSig.
    repeat split; vm_compute; congruence.
  - intros fuel. apply constructor_None.
    rewrite (parseEntries_directory fuel skipArchive 127 33 94);
      try (vm_compute; congruence).
    apply (cdLoop_stuck skipArchive (33 + 94) 33 []); [lia | exact Hbody].
Qed.

(** C2.  Construction does not terminate on every buffer: on [loopArchive],
    whose only directory record points at bytes that are not a local-header
    signature, the directory walk repeats the same iteration for ever, so
    no number of iterations lets the constructor return or throw. *)
Theorem constructor_diverges_on_dangling_record :
  forall fuel, Unzipper_constructor fuel loopArchive = None.
Proof.
  intros fuel. apply constructor_None.
  rewrite (parseEntries_directory fuel loopArchive 47 0 47);
    try (vm_compute; congruence).
  apply (cdLoop_stuck loopArchive (0 + 47) 0 []);
    [lia | vm_compute; reflexivity].
Qed.

Lemma string_append_cancel (p a b : string) :
  (p ++ a)%string = (p ++ b)%string -> a = b.
Proof.
  induction p as [| c p IH]; simpl; intros H; [exact H |].
  injection H as H. exact (IH H).
Qed.

(** The method code can be read back from the message of the error. *)
Lemma unsupportedMessage_injective (m m' : Z) :
  0 <= m -> 0 <= m' ->
  unsupportedMessage m = unsupportedMessage m' -> m = m'.
Proof.
  unfold unsupportedMessage, numberToString. intros Hm Hm' H.
  apply string_append_cancel in H.
  assert (Hu : Some (N.to_uint (Z.to_N m)) = Some (N.to_uint (Z.to_N m'))).
  { rewrite <- !NilEmpty.usu. rewrite H. reflexivity. }
  injection Hu as Hu.
  apply (f_equal N.of_uint) in Hu.
  rewrite !DecimalN.Unsigned.of_to in Hu. lia.
Qed.

Lemma intact_payload_nonneg (buf : Buffer.t) (o : origin) :
  intact buf o ->
  0 <= payloadStartOf buf o /\ 0 <= compressedSizeOf buf o.
Proof.
  destruct o as [c | h]; cbn [intact payloadStartOf compressedSizeOf].
  - intros _. unfold dirPayloadStart.
    pose proof (u32_range buf (c + 42)).
    pose proof (u32_range buf (c + 20)).
    pose proof (u16_range buf (u32 buf (c + 42) + 26)).
    pose proof (u16_range buf (u32 buf (c + 42) + 28)). lia.
  - intros [Hat _].
    apply occursAt_range in Hat; [| exact localSig_nonempty].
    pose proof (localPayloadEnd_lower buf h).
    pose proof (u32_range buf (h + 18)). lia.
Qed.

(** In a run of the fallback scan, every header is found at or after the
    end of the payload announced by each earlier header. *)
Lemma fallbackChain_sorted (buf : Buffer.t) :
  forall (hs : list Z) (cur : Z),
    0 <= cur ->
    fallbackChain buf cur hs ->
    Forall (fun h => cur <= h) hs /\
    Forall (fun h => h + 30 <= Buffer.length buf) hs /\
    StronglySorted (fun h h' => localPayloadEnd buf h <= h') hs.
Proof.
  induction hs as [| h hs IH]; intros cur Hcur Hchain.
  - repeat split; constructor.
  - destruct Hchain as (_ & Hidx & Hne & Hin & Hrest).
    destruct (indexOf_found buf localSig cur h Hcur Hidx Hne) as (Hr & _ & _).
    pose proof (localPayloadEnd_lower buf h) as Hlow.
    destruct (IH (localPayloadEnd buf h) ltac:(lia) Hrest)
      as (Hge & Hok & Hsorted).
    split; [| split].
    + constructor; [lia |].
      eapply Forall_impl; [| exact Hge]. cbv beta. intros; lia.
    + constructor; assumption.
    + constructor; assumption.
Qed.

(** A header of the fallback scan whose announced payload reaches beyond
    the end of the buffer is the last one the scan finds. *)
Lemma beyond_bounds_is_last (buf : Buffer.t) :
  forall hs : list Z,
    StronglySorted (fun h h' => localPayloadEnd buf h <= h') hs ->
    Forall (fun h => h + 30 <= Buffer.length buf) hs ->
    forall h, In h hs ->
      Buffer.length buf < localPayloadEnd buf h ->
      exists hs1, hs = hs1 ++ [h].
Proof.
  induction hs as [| a tl IH]; intros Hsorted Hok h Hin Hbeyond;
    [contradiction |].
  apply StronglySorted_inv in Hsorted. destruct Hsorted as [Htl Ha].
  apply Forall_cons_iff in Hok. destruct Hok as [_ Hoktl].
  destruct Hin as [<- | Hin].
  - destruct tl as [| b tl']; [exists []; reflexivity |].
    apply Forall_inv in Ha. apply Forall_inv in Hoktl. lia.
  - destruct (IH Htl Hoktl h Hin Hbeyond) as [hs1 ->].
    exists (a :: hs1). reflexivity.
Qed.

(** C3, as the code has it.  Every entry of the result comes from intact
    headers and captures [slice(payloadStart, payloadStart +
    compressedSize)], which is the part of that range lying inside the
    buffer: the bytes handed out are bytes of the archive, at most
    [compressedSize] of them, and a header that announces a range reaching
    beyond the end of the buffer still yields its entry, with the payload
    cut at the end of the buffer.  On the fallback path such a header is
    the last one of the scan. *)
Theorem entry_view_is_clamped_to_buffer (fuel : nat) (buf : Buffer.t)
    (u : Unzipper) :
  Unzipper_constructor fuel buf = Some (Ret u) ->
  exists os,
    visited buf os /\
    getEntries u = map (entryOf buf) os /\
    Forall
      (fun o =>
         intact buf o /\
         entryOf buf o =
           mkEntry (nameOf buf o) (methodOf buf o) (compressedDataOf buf o) /\
         let start := payloadStartOf buf o in
         let stop := payloadStartOf buf o + compressedSizeOf buf o in
         let len := Buffer.length buf in
         0 <= start <= stop /\
         compressedDataOf buf o =
           Buffer.window buf (Z.min start len) (Z.min stop len) /\
         Buffer.length (compressedDataOf buf o) =
           Z.min stop len - Z.min start len /\
         forall k, 0 <= k < Z.min stop len - Z.min start len ->
           Buffer.get (compressedDataOf buf o) k =
           Buffer.get buf (start + k))
      os /\
    (findEocd buf = -1 ->
     forall o, In o os ->
       Buffer.length buf < payloadStartOf buf o + compressedSizeOf buf o ->
       exists os1, os = os1 ++ [o]).
Proof.
  intros H.
  destruct (constructor_visited _ _ _ H) as (os & Hvis & Hres & Hall).
  exists os. split; [exact Hvis |]. split; [exact Hres |]. split.
  - eapply Forall_impl; [| exact Hall]. cbv beta.
    intros o Hint.
    split; [exact Hint |]. split; [apply entryOf_mkEntry |].
    destruct (intact_payload_nonneg buf o Hint) as [Hstart Hsize].
    pose proof (length_nonneg buf) as Hlen.
    cbv zeta.
    assert (Hslice :
      compressedDataOf buf o =
      Buffer.window buf (Z.min (payloadStartOf buf o) (Buffer.length buf))
        (Z.min (payloadStartOf buf o + compressedSizeOf buf o)
               (Buffer.length buf))).
    { unfold compressedDataOf. apply slice_clamped; lia. }
    split; [lia |]. split; [exact Hslice |]. split.
    + rewrite Hslice. apply window_length; lia.
    + intros k Hk. rewrite Hslice.
      rewrite window_get by lia. f_equal. lia.
  - intros Heocd o Hin Hbeyond.
    unfold visited in Hvis. rewrite Heocd in Hvis. cbn [Z.eqb Pos.eqb] in Hvis.
    destruct Hvis as (hs & -> & Hchain).
    apply in_map_iff in Hin. destruct Hin as (h & <- & Hin).
    destruct (fallbackChain_sorted buf hs 0 (Z.le_refl 0) Hchain)
      as (_ & Hok & Hsorted).
    destruct (beyond_bounds_is_last buf hs Hsorted Hok h Hin Hbeyond)
      as [hs1 ->].
    exists (map FromLocal hs1). rewrite map_app. reflexivity.
Qed.

(** C4, as the code has it.  Listing never fails because of a compression
    method: the only exception the constructor can raise is the
    [RangeError] of an out-of-range read, and whenever the headers can be
    gone through the constructor returns the entries of all of them,
    whatever their methods.  [getData] on an entry whose method is neither
    0 nor 8 throws an object of the plain class [Error], not of a class of
    its own, whose message carries the method code; the code can be read
    back from the message. *)
Theorem unsupported_method_throws_plain_Error (fuel : nat)
    (buf : Buffer.t) :
  (forall e, Unzipper_constructor fuel buf = Some (Throw e) ->
             e = RangeError) /\
  (forall os, visited buf os -> (List.length os < fuel)%nat ->
     Unzipper_constructor fuel buf =
     Some (Ret {| entries := map (entryOf buf) os |})) /\
  (forall u, Unzipper_constructor fuel buf = Some (Ret u) ->
     exists os,
       visited buf os /\
       getEntries u = map (entryOf buf) os /\
       Forall
         (fun o =>
            methodOf buf o <> 0 -> methodOf buf o <> 8 ->
            exists e,
              getData (entryOf buf o) tt = Throw e /\
              e = Error (unsupportedMessage (methodOf buf o)) /\
              classOf e = ErrorClass)
         os) /\
  (forall m m', 0 <= m -> 0 <= m' ->
     unsupportedMessage m = unsupportedMessage m' -> m = m').
Proof.
  split; [intros e; apply constructor_Throw |].
  split; [intros os; apply constructor_complete |].
  split; [| exact unsupportedMessage_injective].
  intros u H.
  destruct (constructor_visited _ _ _ H) as (os & Hvis & Hres & _).
  exists os. split; [exact Hvis |]. split; [exact Hres |].
  apply Forall_forall. intros o _ H0 H8.
  exists (Error (unsupportedMessage (methodOf buf o))).
  split; [| split; reflexivity].
  rewrite entryOf_mkEntry. cbn [getData mkEntry].
  destruct (Z.eqb_spec (methodOf buf o) 8) as [Heq | _]; [contradiction |].
  destruct (Z.eqb_spec (methodOf buf o) 0) as [Heq | _]; [contradiction |].
  reflexivity.
Qed.

Lemma get_app_right (pre l : list byte) (k : Z) :
  0 <= k -> Buffer.get (pre ++ l) (Buffer.length pre + k) = Buffer.get l k.
Proof.
  intros Hk. unfold Buffer.get, Buffer.length.
  destruct (Z.ltb_spec (Z.of_nat (List.length pre) + k) 0); [lia |].
  destruct (Z.ltb_spec k 0); [lia |].
  rewrite nth_error_app2 by lia.
  replace (Z.to_nat (Z.of_nat (List.length pre) + k) - List.length pre)%nat
    with (Z.to_nat k) by lia.
  reflexivity.
Qed.

Lemma isEocdSig_after_prefix (pre rest : list byte) :
  isEocdSig (pre ++ [x50; x4b; x05; x06] ++ rest) (Buffer.length pre) = true.
Proof.
  unfold isEocdSig, Buffer.byteIs.
  replace (Buffer.get (pre ++ [x50; x4b; x05; x06] ++ rest) (Buffer.length pre))
    with (Buffer.get (pre ++ [x50; x4b; x05; x06] ++ rest)
            (Buffer.length pre + 0)) by (f_equal; lia).
  rewrite !get_app_right by lia. reflexivity.
Qed.

Lemma byteVal_inj (a b : byte) : byteVal a = byteVal b -> a = b.
Proof.
  unfold byteVal. intros H. apply N2Z.inj in H.
  pose proof (Byte.of_to_N a) as Ha. rewrite H, Byte.of_to_N in Ha.
  congruence.
Qed.

Lemma byteIs_nth (buf : Buffer.t) (i v : Z) :
  Buffer.byteIs buf i v = true ->
  0 <= i /\
  exists b, nth_error buf (Z.to_nat i) = Some b /\ byteVal b = v.
Proof.
  unfold Buffer.byteIs, Buffer.get.
  destruct (Z.ltb_spec i 0) as [Hneg | Hpos]; [discriminate |].
  destruct (nth_error buf (Z.to_nat i)) as [b |]; [| discriminate].
  cbn [option_map]. intros H. apply Z.eqb_eq in H.
  split; [exact Hpos |]. exists b. split; [reflexivity | exact H].
Qed.

Lemma skipn_nth_error (l : list byte) :
  forall (n : nat) (a : byte),
    nth_error l n = Some a -> skipn n l = a :: skipn (S n) l.
Proof.
  induction l as [| x l IH]; intros [| n] a H; try discriminate H.
  - injection H as <-. reflexivity.
  - cbn [nth_error] in H. cbn [skipn]. exact (IH n a H).
Qed.

(** The test of lines 22-27 holds at [i] exactly when the four bytes of
    the signature stand at position [i]. *)
Lemma isEocdSig_iff (buf : Buffer.t) (i : Z) :
  isEocdSig buf i = true <-> eocdSigAt buf i.
Proof.
  split.
  - unfold isEocdSig. intros H.
    apply andb_true_iff in H. destruct H as [H H3].
    apply andb_true_iff in H. destruct H as [H H2].
    apply andb_true_iff in H. destruct H as [H0 H1].
    apply byteIs_nth in H0. destruct H0 as (Hi & b0 & N0 & V0).
    apply byteIs_nth in H1. destruct H1 as (_ & b1 & N1 & V1).
    apply byteIs_nth in H2. destruct H2 as (_ & b2 & N2 & V2).
    apply byteIs_nth in H3. destruct H3 as (_ & b3 & N3 & V3).
    replace (Z.to_nat (i + 1)) with (S (Z.to_nat i)) in N1 by lia.
    replace (Z.to_nat (i + 2)) with (S (S (Z.to_nat i))) in N2 by lia.
    replace (Z.to_nat (i + 3)) with (S (S (S (Z.to_nat i)))) in N3 by lia.
    assert (E0 : b0 = x50) by (apply byteVal_inj; rewrite V0; reflexivity).
    assert (E1 : b1 = x4b) by (apply byteVal_inj; rewrite V1; reflexivity).
    assert (E2 : b2 = x05) by (apply byteVal_inj; rewrite V2; reflexivity).
    assert (E3 : b3 = x06) by (apply byteVal_inj; rewrite V3; reflexivity).
    subst b0 b1 b2 b3.
    exists (firstn (Z.to_nat i) buf),
      (skipn (S (S (S (S (Z.to_nat i))))) buf).
    split.
    + rewrite <- (firstn_skipn (Z.to_nat i) buf) at 1. f_equal.
      rewrite (skipn_nth_error _ _ _ N0), (skipn_nth_error _ _ _ N1),
        (skipn_nth_error _ _ _ N2), (skipn_nth_error _ _ _ N3).
      reflexivity.
    + unfold Buffer.length. rewrite length_firstn.
      assert (Hlt : (Z.to_nat i < List.length buf)%nat).
      { apply nth_error_Some. congruence. }
      lia.
  - intros (pre & post & -> & <-). apply isEocdSig_after_prefix.
Qed.

Lemma isEocdSig_false_iff (buf : Buffer.t) (i : Z) :
  isEocdSig buf i = false <-> ~ eocdSigAt buf i.
Proof.
  rewrite <- isEocdSig_iff.
  destruct (isEocdSig buf i); split; congruence.
Qed.

(** C5, as the code has it.  The scan covers the positions from
    [length - 22] down to [max(0, length - (65535 + 22))] and returns the
    position nearest to the end of the buffer at which the bytes
    [50 4B 05 06] stand, or [-1] when they stand at none of these
    positions.  An EOCD record followed by a comment of at most 65535
    bytes lies inside that range, so a position is found, at or after the
    record; it is the record itself exactly when the signature bytes do not
    stand again at a later position of the range, in the record or in its
    comment.  When nothing is found the constructor is the fallback scan:
    the selection itself raises nothing. *)
Theorem eocd_locator_selects_last_signature (fuel : nat) (buf : Buffer.t) :
  scanStartOf buf = Z.max 0 (Buffer.length buf - (65535 + 22)) /\
  ((findEocd buf = -1 /\
    forall j, scanStartOf buf <= j <= Buffer.length buf - 22 ->
              ~ eocdSigAt buf j)
   \/
   (scanStartOf buf <= findEocd buf <= Buffer.length buf - 22 /\
    eocdSigAt buf (findEocd buf) /\
    forall j, findEocd buf < j <= Buffer.length buf - 22 ->
              ~ eocdSigAt buf j)) /\
  (forall pre rest comment,
     buf = pre ++ eocdSig ++ rest ++ comment ->
     List.length rest = 18%nat ->
     Buffer.length comment <= 65535 ->
     scanStartOf buf <= Buffer.length pre <= Buffer.length buf - 22 /\
     Buffer.length pre <= findEocd buf /\
     (findEocd buf = Buffer.length pre <->
      forall j, Buffer.length pre < j <= Buffer.length buf - 22 ->
                ~ eocdSigAt buf j)) /\
  (findEocd buf = -1 ->
   parseEntries fuel buf = fallbackLoop fuel buf 0 []).
Proof.
  split; [reflexivity |].
  split.
  { destruct (findEocd_spec buf) as [[Hr Hall] | (Hr & Hat & Hall)].
    - left. split; [exact Hr |].
      intros j Hj. apply isEocdSig_false_iff. exact (Hall j Hj).
    - right. split; [exact Hr |].
      split; [apply isEocdSig_iff; exact Hat |].
      intros j Hj. apply isEocdSig_false_iff. exact (Hall j Hj). }
  split; [| apply parseEntries_fallback].
  intros pre rest comment Hbuf Hrest Hcomment.
  assert (Hsig : isEocdSig buf (Buffer.length pre) = true).
  { rewrite Hbuf. apply isEocdSig_after_prefix. }
  assert (Hlen : Buffer.length buf =
                 Buffer.length pre + 22 + Buffer.length comment).
  { rewrite Hbuf. unfold Buffer.length, eocdSig.
    rewrite !length_app. cbn [List.length]. lia. }
  assert (Hwin : scanStartOf buf <= Buffer.length pre
                 <= Buffer.length buf - 22).
  { unfold scanStartOf, maxCommentLength.
    pose proof (length_nonneg pre). pose proof (length_nonneg comment).
    lia. }
  split; [exact Hwin |].
  destruct (findEocd_spec buf) as [[_ Hall] | (Hr & Hat & Hall)].
  - rewrite (Hall _ Hwin) in Hsig. discriminate Hsig.
  - assert (Hge : Buffer.length pre <= findEocd buf).
    { destruct (Z.le_gt_cases (Buffer.length pre) (findEocd buf))
        as [Hle | Hgt]; [exact Hle |].
      rewrite Hall in Hsig by lia. discriminate Hsig. }
    split; [exact Hge |]. split.
    + intros Heq j Hj. apply isEocdSig_false_iff. apply Hall. lia.
    + intros Hlater.
      destruct (Z.eq_dec (findEocd buf) (Buffer.length pre)) as [Heq | Hne];
        [exact Heq |].
      apply isEocdSig_iff in Hat.
      exfalso. apply (Hlater (findEocd buf)); [lia | exact Hat].
Qed.

(** C6.  For every entry of the result, [getData] returns the captured
    bytes unchanged when the method is 0 and the result of
    [zlib.inflateRawSync] on them when the method is 8; the zlib- and
    gzip-wrapped decompressors play no part, whatever they do. *)
Theorem getData_dispatch (fuel : nat) (buf : Buffer.t) (u : Unzipper) :
  Unzipper_constructor fuel buf = Some (Ret u) ->
  exists os,
    getEntries u = map (entryOf buf) os /\
    Forall
      (fun o =>
         (methodOf buf o = 0 ->
          getData (entryOf buf o) tt = Ret (compressedDataOf buf o)) /\
         (methodOf buf o = 8 ->
          getData (entryOf buf o) tt =
          inflateRawSync (compressedDataOf buf o)) /\
         (forall zlibWrapped gzipWrapped,
            getData (entryOf (rt := withWrappers rt zlibWrapped gzipWrapped)
                       buf o) tt =
            getData (entryOf buf o) tt))
      os.
Proof.
  intros H.
  destruct (constructor_visited _ _ _ H) as (os & _ & Hres & _).
  exists os. split; [exact Hres |].
  apply Forall_forall. intros o _.
  rewrite entryOf_mkEntry. cbn [getData mkEntry].
  split; [| split].
  - intros ->. reflexivity.
  - intros ->. reflexivity.
  - intros zlibWrapped gzipWrapped. destruct o; reflexivity.
Qed.




(** C9.  For every entry of the result, [isDirectory] is true exactly when
    the entry's name is some string followed by ["/"]. *)
Theorem isDirectory_iff_name_ends_with_slash (fuel : nat) (buf : Buffer.t)
    (u : Unzipper) :
  Unzipper_constructor fuel buf = Some (Ret u) ->
  Forall
    (fun e =>
       isDirectory e = true <-> exists p, entryName e = (p ++ "/")%string)
    (getEntries u).
Proof.
  intros H. apply constructor_Produced in H.
  eapply Forall_impl; [| exact H]. cbv beta.
  intros e (o & _ & ->). rewrite entryOf_mkEntry.
  cbn [isDirectory entryName mkEntry]. apply endsWith_spec.
Qed.

Lemma findEocd_short (buf : Buffer.t) :
  Buffer.length buf < 22 -> findEocd buf = -1.
Proof.
  intros Hlen.
  destruct (findEocd_spec buf) as [[Hr _] | (Hr & _)]; [exact Hr |].
  pose proof (scanStartOf_nonneg buf). lia.
Qed.

(** C10.  When the EOCD scan finds nothing and the local-header signature
    occurs nowhere in the buffer, and in particular when the buffer has at
    most 4 bytes, the constructor returns, without throwing, an object
    whose [getEntries()] is empty. *)
Theorem no_signature_gives_no_entries (fuel : nat) (buf : Buffer.t) :
  (0 < fuel)%nat ->
  (findEocd buf = -1 /\
   forall p, Buffer.occursAt localSig buf p = false) \/
  Buffer.length buf <= 4 ->
  exists u,
    Unzipper_constructor fuel buf = Some (Ret u) /\ getEntries u = [].
Proof.
  intros Hfuel Hcase.
  exists {| entries := [] |}. split; [| reflexivity].
  destruct fuel as [| fuel]; [lia |].
  unfold Unzipper_constructor.
  destruct Hcase as [[Heocd Hnone] | Hshort].
  - rewrite (parseEntries_fallback _ _ Heocd). cbn [fallbackLoop].
    destruct (0 <? Buffer.length buf - 4); [| reflexivity].
    unfold fallbackBody.
    assert (Hidx : Buffer.indexOf buf localSig 0 = -1).
    { apply indexOf_none; [lia | exact localSig_nonempty |].
      intros p _. apply Hnone. }
    rewrite Hidx. reflexivity.
  - rewrite (parseEntries_fallback _ _ (findEocd_short buf ltac:(lia))).
    cbn [fallbackLoop].
    destruct (Z.ltb_spec 0 (Buffer.length buf - 4)); [lia | reflexivity].
Qed.

End Properties.

(** ** Worked examples *)

(** The scenario of the specification: three entries in directory order,
    the stored and the deflated payloads decode to their contents. *)
Example scenario_listing :
  Unzipper_constructor 4 scenarioArchive =
  Some (Ret {| entries :=
                 map (entryOf scenarioArchive)
                   [FromDirectory 139; FromDirectory 189; FromDirectory 244] |})
  /\ map entryName
       (map (entryOf scenarioArchive)
          [FromDirectory 139; FromDirectory 189; FromDirectory 244])
     = ["dir/"; "dir/a.txt"; "dir/b.txt"]%string
  /\ getData (entryOf scenarioArchive (FromDirectory 189)) tt
     = Ret (ascii_bytes "hello")
  /\ getData (entryOf scenarioArchive (FromDirectory 244)) tt
     = Ret (ascii_bytes "world world world").
Proof. repeat split; vm_compute; reflexivity. Qed.

(** C3, as stated, fails.  [truncatedArchive] has no EOCD record and one
    local header, at offset 0, that announces the payload range [31, 41) in
    a buffer of 33 bytes: the fallback scan produces its entry all the
    same, with the two bytes that are there.  In [overlongArchive] the
    directory record at offset 33 announces the range [31, 1031) in a
    buffer of 102 bytes: the record is not skipped either. *)
Lemma view_beyond_bounds_counterexample :
  (findEocd truncatedArchive = -1 /\
   Unzipper_constructor 2 truncatedArchive =
     Some (Ret {| entries := [entryOf truncatedArchive (FromLocal 0)] |}) /\
   payloadStartOf truncatedArchive (FromLocal 0) = 31 /\
   compressedSizeOf truncatedArchive (FromLocal 0) = 10 /\
   Buffer.length truncatedArchive = 33 /\
   getData (entryOf truncatedArchive (FromLocal 0)) tt = Ret [x68; x69]) /\
  (findEocd overlongArchive = 80 /\
   Unzipper_constructor 2 overlongArchive =
     Some (Ret {| entries := [entryOf overlongArchive (FromDirectory 33)] |}) /\
   payloadStartOf overlongArchive (FromDirectory 33) = 31 /\
   compressedSizeOf overlongArchive (FromDirectory 33) = 1000 /\
   Buffer.length overlongArchive = 102 /\
   Buffer.length (compressedDataOf overlongArchive (FromDirectory 33)) = 71).
Proof. repeat split; vm_compute; reflexivity. Qed.

Lemma entry_view_is_clamped_to_buffer_witness :
  Unzipper_constructor 2 overlongArchive =
    Some (Ret {| entries := [entryOf overlongArchive (FromDirectory 33)] |}) /\
  exists os,
    visited overlongArchive os /\
    [entryOf overlongArchive (FromDirectory 33)] =
      map (entryOf overlongArchive) os /\
    Forall
      (fun o =>
         intact overlongArchive o /\
         entryOf overlongArchive o =
           mkEntry (nameOf overlongArchive o) (methodOf overlongArchive o)
             (compressedDataOf overlongArchive o) /\
         let start := payloadStartOf overlongArchive o in
         let stop :=
           payloadStartOf overlongArchive o
           + compressedSizeOf overlongArchive o in
         let len := Buffer.length overlongArchive in
         0 <= start <= stop /\
         compressedDataOf overlongArchive o =
           Buffer.window overlongArchive (Z.min start len) (Z.min stop len) /\
         Buffer.length (compressedDataOf overlongArchive o) =
           Z.min stop len - Z.min start len /\
         forall k, 0 <= k < Z.min stop len - Z.min start len ->
           Buffer.get (compressedDataOf overlongArchive o) k =
           Buffer.get overlongArchive (start + k))
      os /\
    (findEocd overlongArchive = -1 ->
     forall o, In o os ->
       Buffer.length overlongArchive
       < payloadStartOf overlongArchive o
         + compressedSizeOf overlongArchive o ->
       exists os1, os = os1 ++ [o]).
Proof.
  assert (H : Unzipper_constructor 2 overlongArchive =
              Some (Ret {| entries :=
                             [entryOf overlongArchive (FromDirectory 33)] |}))
    by (vm_compute; reflexivity).
  split; [exact H |].
  exact (entry_view_is_clamped_to_buffer 2 overlongArchive _ H).
Defined.

(** C4, as stated, fails.  In [mixedLocals] the entry with method 99 and
    the deflated entry whose stream is cut both fail in [getData], and the
    two thrown objects have the same class, [Error]: the failure for an
    unsupported method has no type of its own. *)
Lemma unsupported_error_has_no_type_of_its_own_counterexample :
  findEocd mixedLocals = -1 /\
  Unzipper_constructor 3 mixedLocals =
    Some (Ret {| entries := map (localEntry mixedLocals) [0; 34] |}) /\
  u16 mixedLocals (0 + 8) = 8 /\
  u16 mixedLocals (34 + 8) = 99 /\
  exists e8 e99,
    getData (localEntry mixedLocals 0) tt = Throw e8 /\
    getData (localEntry mixedLocals 34) tt = Throw e99 /\
    e8 = Error "unexpected end of file" /\
    e99 = Error "Méthode de compression non supportée: 99" /\
    classOf e99 = ErrorClass /\
    classOf e99 = classOf e8.
Proof.
  split; [vm_compute; reflexivity |].
  split; [vm_compute; reflexivity |].
  split; [vm_compute; reflexivity |].
  split; [vm_compute; reflexivity |].
  exists (Error "unexpected end of file"),
    (Error "Méthode de compression non supportée: 99").
  repeat split; vm_compute; reflexivity.
Qed.

Lemma unsupported_method_throws_plain_Error_witness :
  Unzipper_constructor 3 method99Archive =
    Some (Ret {| entries :=
                   map (entryOf method99Archive)
                     [FromDirectory 67; FromDirectory 114] |}) /\
  methodOf method99Archive (FromDirectory 114) = 99 /\
  getData (entryOf method99Archive (FromDirectory 114)) tt =
    Throw (Error "Méthode de compression non supportée: 99") /\
  exists os,
    visited method99Archive os /\
    map (entryOf method99Archive) [FromDirectory 67; FromDirectory 114] =
      map (entryOf method99Archive) os /\
    Forall
      (fun o =>
         methodOf method99Archive o <> 0 ->
         methodOf method99Archive o <> 8 ->
         exists e,
           getData (entryOf method99Archive o) tt = Throw e /\
           e = Error (unsupportedMessage (methodOf method99Archive o)) /\
           classOf e = ErrorClass)
      os.
Proof.
  assert (H : Unzipper_constructor 3 method99Archive =
              Some (Ret {| entries :=
                             map (entryOf method99Archive)
                               [FromDirectory 67; FromDirectory 114] |}))
    by (vm_compute; reflexivity).
  split; [exact H |].
  split; [vm_compute; reflexivity |].
  split; [vm_compute; reflexivity |].
  exact (proj1 (proj2 (proj2
           (unsupported_method_throws_plain_Error 3 method99Archive)))
           _ H).
Defined.

(** C5, as stated, fails.  [hijackedArchive] is an intact archive: its
    EOCD record stands at offset 80 and announces the directory of 47
    bytes at offset 33, whose record and local header are intact; the
    record is followed by a comment of 22 bytes.  The comment begins with
    the signature bytes, at offset 102, which is the last position scanned:
    the scan selects 102, not the record, reads a directory size of 0 there
    and lists nothing. *)
Lemma eocd_behind_comment_is_missed_counterexample :
  hijackedArchive =
    hijackedPrefix ++ eocdSig ++ hijackedEocdRest ++ hijackedComment /\
  List.length hijackedEocdRest = 18%nat /\
  Buffer.length hijackedComment = 22 /\
  Buffer.length hijackedPrefix = 80 /\
  Buffer.length hijackedArchive = 124 /\
  u32 hijackedArchive (80 + 16) = 33 /\
  u32 hijackedArchive (80 + 12) = 47 /\
  u16 hijackedArchive (80 + 20) = 22 /\
  survivingRecord hijackedArchive 33 /\
  findEocd hijackedArchive = 102 /\
  Unzipper_constructor 1 hijackedArchive = Some (Ret {| entries := [] |}).
Proof.
  split; [reflexivity |].
  split; [reflexivity |].
  split; [vm_compute; reflexivity |].
  split; [vm_compute; reflexivity |].
  split; [vm_compute; reflexivity |].
  split; [vm_compute; reflexivity |].
  split; [vm_compute; reflexivity |].
  split; [vm_compute; reflexivity |].
  split.
  { unfold survivingRecord, hasSig. repeat split; vm_compute; congruence. }
  split; vm_compute; reflexivity.
Qed.

Lemma eocd_locator_selects_last_signature_witness :
  commentedArchive =
    (scenarioLocals ++ scenarioDirectory) ++ eocdSig
    ++ (le16 0 ++ le16 0 ++ le16 3 ++ le16 3 ++ le32 160 ++ le32 139
        ++ le16 9)
    ++ ascii_bytes "a comment" /\
  List.length (le16 0 ++ le16 0 ++ le16 3 ++ le16 3 ++ le32 160 ++ le32 139
               ++ le16 9) = 18%nat /\
  Buffer.length (ascii_bytes "a comment") <= 65535 /\
  findEocd commentedArchive = 299 /\
  (scanStartOf commentedArchive
   <= Buffer.length (scenarioLocals ++ scenarioDirectory)
   <= Buffer.length commentedArchive - 22 /\
   Buffer.length (scenarioLocals ++ scenarioDirectory)
   <= findEocd commentedArchive /\
   (findEocd commentedArchive
    = Buffer.length (scenarioLocals ++ scenarioDirectory) <->
    forall j,
      Buffer.length (scenarioLocals ++ scenarioDirectory) < j
      <= Buffer.length commentedArchive - 22 ->
      ~ eocdSigAt commentedArchive j)).
Proof.
  assert (H1 : commentedArchive =
    (scenarioLocals ++ scenarioDirectory) ++ eocdSig
    ++ (le16 0 ++ le16 0 ++ le16 3 ++ le16 3 ++ le32 160 ++ le32 139
        ++ le16 9)
    ++ ascii_bytes "a comment") by (vm_compute; reflexivity).
  assert (H2 : List.length
                 (le16 0 ++ le16 0 ++ le16 3 ++ le16 3 ++ le32 160
                  ++ le32 139 ++ le16 9) = 18%nat) by reflexivity.
  assert (H3 : Buffer.length (ascii_bytes "a comment") <= 65535)
    by (vm_compute; congruence).
  split; [exact H1 |]. split; [exact H2 |]. split; [exact H3 |].
  split; [vm_compute; reflexivity |].
  exact (proj1 (proj2 (proj2
           (eocd_locator_selects_last_signature 1 commentedArchive)))
           _ _ _ H1 H2 H3).
Defined.

Lemma getData_dispatch_witness :
  Unzipper_constructor 4 scenarioArchive =
    Some (Ret {| entries :=
                   map (entryOf scenarioArchive)
                     [FromDirectory 139; FromDirectory 189;
                      FromDirectory 244] |}) /\
  exists os,
    map (entryOf scenarioArchive)
      [FromDirectory 139; FromDirectory 189; FromDirectory 244] =
      map (entryOf scenarioArchive) os /\
    Forall
      (fun o =>
         (methodOf scenarioArchive o = 0 ->
          getData (entryOf scenarioArchive o) tt =
          Ret (compressedDataOf scenarioArchive o)) /\
         (methodOf scenarioArchive o = 8 ->
          getData (entryOf scenarioArchive o) tt =
          inflateRawSync (compressedDataOf scenarioArchive o)) /\
         (forall zlibWrapped gzipWrapped,
            getData
              (entryOf
                 (rt := withWrappers sampleRuntime zlibWrapped gzipWrapped)
                 scenarioArchive o) tt =
            getData (entryOf scenarioArchive o) tt))
      os.
Proof.
  assert (H : Unzipper_constructor 4 scenarioArchive =
              Some (Ret {| entries :=
                             map (entryOf scenarioArchive)
                               [FromDirectory 139; FromDirectory 189;
                                FromDirectory 244] |}))
    by (vm_compute; reflexivity).
  split; [exact H |].
  exact (getData_dispatch 4 scenarioArchive _ H).
Defined.



Lemma isDirectory_iff_name_ends_with_slash_witness :
  Unzipper_constructor 4 scenarioArchive =
    Some (Ret {| entries :=
                   map (entryOf scenarioArchive)
                     [FromDirectory 139; FromDirectory 189;
                      FromDirectory 244] |}) /\
  Forall
    (fun e =>
       isDirectory e = true <-> exists p, entryName e = (p ++ "/")%string)
    (map (entryOf scenarioArchive)
       [FromDirectory 139; FromDirectory 189; FromDirectory 244]).
Proof.
  assert (H : Unzipper_constructor 4 scenarioArchive =
              Some (Ret {| entries :=
                             map (entryOf scenarioArchive)
                               [FromDirectory 139; FromDirectory 189;
                                FromDirectory 244] |}))
    by (vm_compute; reflexivity).
  split; [exact H |].
  exact (isDirectory_iff_name_ends_with_slash 4 scenarioArchive _ H).
Defined.

Lemma no_signature_gives_no_entries_witness :
  (0 < 1)%nat /\
  (findEocd (ascii_bytes "this file is not a zip archive") = -1 /\
   forall p,
     Buffer.occursAt localSig (ascii_bytes "this file is not a zip archive") p
     = false) /\
  exists u,
    Unzipper_constructor 1 (ascii_bytes "this file is not a zip archive")
      = Some (Ret u) /\
    getEntries u = [].
Proof.
  assert (H0 : (0 < 1)%nat) by lia.
  assert (H1 : findEocd (ascii_bytes "this file is not a zip archive") = -1
               /\ forall p,
                    Buffer.occursAt localSig
                      (ascii_bytes "this file is not a zip archive") p
                    = false).
  { split; [vm_compute; reflexivity |].
    intros p. destruct (Z.le_gt_cases 0 p) as [Hp | Hp].
    - apply (proj1 (indexOf_none _ localSig 0 (Z.le_refl 0) localSig_nonempty));
        [vm_compute; reflexivity | exact Hp].
    - unfold Buffer.occursAt.
      destruct (Z.leb_spec 0 p); [lia | reflexivity]. }
  split; [exact H0 |]. split; [exact H1 |].
  exact (no_signature_gives_no_entries 1 _ H0 (or_introl H1)).
Defined.

(** * Further properties of the constructor *)

Section Outcomes.

Context {rt : NodeRuntime}.

(** ** Reads outside the buffer *)

Lemma readUInt16LE_out (buf : Buffer.t) (offset : Z) :
  Buffer.length buf < offset + 2 ->
  Buffer.readUInt16LE buf offset = Throw RangeError.
Proof.
  intros Hout.
  destruct (Buffer.readUInt16LE buf offset) as [v | e] eqn:E.
  - apply readUInt16LE_Ret in E. lia.
  - rewrite (readUInt16LE_Throw _ _ _ E). reflexivity.
Qed.

Lemma readUInt32LE_out (buf : Buffer.t) (offset : Z) :
  Buffer.length buf < offset + 4 ->
  Buffer.readUInt32LE buf offset = Throw RangeError.
Proof.
  intros Hout.
  destruct (Buffer.readUInt32LE buf offset) as [v | e] eqn:E.
  - apply readUInt32LE_Ret in E. lia.
  - rewrite (readUInt32LE_Throw _ _ _ E). reflexivity.
Qed.

Ltac read_or_throw :=
  match goal with
  | |- bind ?c _ = Throw RangeError =>
      let v := fresh "v" in
      let e := fresh "e" in
      let E := fresh "E" in
      destruct c as [v | e] eqn:E; cbn [bind];
      [| first [ rewrite (readUInt16LE_Throw _ _ _ E)
               | rewrite (readUInt32LE_Throw _ _ _ E) ]; reflexivity]
  end.

(** An iteration of the fallback scan on a signature that has fewer than
    30 bytes after its start throws. *)
Lemma fallbackBody_truncated (buf : Buffer.t) (cur h : Z)
    (acc : list ZipEntry) :
  Buffer.indexOf buf localSig cur = h -> h <> -1 ->
  Buffer.length buf < h + 30 ->
  fallbackBody buf cur acc = Throw RangeError.
Proof.
  intros Hidx Hne Hlen. unfold fallbackBody. rewrite Hidx.
  destruct (Z.eqb_spec h (-1)) as [Heq | _]; [contradiction |].
  do 5 read_or_throw.
  apply readUInt16LE_Ret in E3. lia.
Qed.

(** An iteration of the directory walk throws when the record is cut by
    the end of the buffer, when the local header offset it carries lies
    outside the buffer, or when the local header it points to is cut. *)
Lemma cdBody_out_of_range (buf : Buffer.t) (c : Z) (acc : list ZipEntry) :
  Buffer.length buf < c + 4 \/
  (hasSig buf c 0x02014b50 /\
   (Buffer.length buf < c + 46 \/
    Buffer.length buf < u32 buf (c + 42) + 4 \/
    (hasSig buf (u32 buf (c + 42)) 0x04034b50 /\
     Buffer.length buf < u32 buf (c + 42) + 30))) ->
  cdBody buf c acc = Throw RangeError.
Proof.
  intros Hcase. unfold cdBody.
  destruct Hcase as [Hout | [Hsig Hcase]].
  - rewrite (readUInt32LE_out _ _ Hout). reflexivity.
  - unfold hasSig in Hsig. rewrite Hsig. cbn [bind].
    cbn [Z.eqb Pos.eqb negb].
    do 7 read_or_throw.
    pose proof (readUInt32LE_u32 _ _ _ E5) as Hrel.
    pose proof (readUInt32LE_Ret _ _ _ E5) as Hin.
    rewrite Hrel in Hcase.
    destruct Hcase as [Hcut | [Hcut | [Hlf Hcut]]].
    + lia.
    + rewrite (readUInt32LE_out _ _ Hcut). reflexivity.
    + unfold hasSig in Hlf. rewrite Hlf. cbn [bind].
      cbn [Z.eqb Pos.eqb negb].
      do 2 read_or_throw.
      apply readUInt16LE_Ret in E7. lia.
Qed.

(** ** Runs that begin with complete headers *)

Lemma fallbackLoop_prefix (buf : Buffer.t) :
  forall (hs : list Z) (cur cur' : Z) (acc : list ZipEntry) (n : nat),
    0 <= cur ->
    fallbackReaches buf cur hs cur' ->
    0 <= cur' /\
    fallbackLoop (List.length hs + n) buf cur acc =
    fallbackLoop n buf cur' (acc ++ map (localEntry buf) hs).
Proof.
  induction hs as [| h hs IH]; intros cur cur' acc n Hcur Hreach;
    cbn [fallbackReaches List.length map Nat.add] in *.
  - subst cur'. rewrite app_nil_r. split; [exact Hcur | reflexivity].
  - destruct Hreach as (Hlt & Hidx & Hne & Hin & Hrest).
    cbn [fallbackLoop].
    destruct (Z.ltb_spec cur (Buffer.length buf - 4)) as [_ | Hge]; [| lia].
    rewrite (fallbackBody_found _ _ _ _ Hcur Hidx Hne Hin).
    destruct (indexOf_found buf localSig cur h Hcur Hidx Hne) as (Hr & _ & _).
    pose proof (localPayloadEnd_lower buf h) as Hlow.
    destruct (IH (localPayloadEnd buf h) cur' (acc ++ [localEntry buf h]) n
                ltac:(lia) Hrest) as [Hpos Heq].
    split; [exact Hpos |].
    rewrite Heq, <- app_assoc. reflexivity.
Qed.

Lemma cdLoop_prefix (buf : Buffer.t) (cdEnd : Z) :
  forall (cs : list Z) (c c' : Z) (acc : list ZipEntry) (n : nat),
    dirReaches buf cdEnd c cs c' ->
    cdLoop (List.length cs + n) buf cdEnd c acc =
    cdLoop n buf cdEnd c' (acc ++ map (dirEntry buf) cs).
Proof.
  induction cs as [| c0 cs IH]; intros c c' acc n Hreach;
    cbn [dirReaches List.length map Nat.add] in *.
  - subst c'. rewrite app_nil_r. reflexivity.
  - destruct Hreach as (Hlt & -> & Hrec & Hrest).
    cbn [cdLoop].
    destruct (Z.ltb_spec c cdEnd) as [_ | Hge]; [| lia].
    rewrite (cdBody_surviving _ _ _ Hrec).
    rewrite (IH _ c' (acc ++ [dirEntry buf c]) n Hrest).
    rewrite <- app_assoc. reflexivity.
Qed.

Lemma constructor_of_parse (fuel : nat) (buf : Buffer.t)
    (r : completion (list ZipEntry)) :
  parseEntries fuel buf = Some r ->
  Unzipper_constructor fuel buf =
  Some (match r with
        | Ret es => Ret {| entries := es |}
        | Throw e => Throw e
        end).
Proof.
  unfold Unzipper_constructor. intros ->. destruct r; reflexivity.
Qed.

Lemma eocd_fields_readable (buf : Buffer.t) :
  findEocd buf <> -1 ->
  0 <= findEocd buf /\ findEocd buf + 22 <= Buffer.length buf /\
  Buffer.readUInt32LE buf (findEocd buf + 16)
    = Ret (u32 buf (findEocd buf + 16)) /\
  Buffer.readUInt32LE buf (findEocd buf + 12)
    = Ret (u32 buf (findEocd buf + 12)).
Proof.
  intros Hne.
  destruct (findEocd_spec buf) as [[Hr _] | (Hr & _)]; [contradiction |].
  pose proof (scanStartOf_nonneg buf) as Hs.
  repeat split; try lia; apply readUInt32LE_ok; lia.
Qed.

Lemma parseEntries_directory_mode (fuel : nat) (buf : Buffer.t) :
  findEocd buf <> -1 ->
  parseEntries fuel buf =
  cdLoop fuel buf
    (u32 buf (findEocd buf + 16) + u32 buf (findEocd buf + 12))
    (u32 buf (findEocd buf + 16)) [].
Proof.
  intros Hne.
  destruct (eocd_fields_readable buf Hne) as (_ & _ & H16 & H12).
  exact (parseEntries_directory fuel buf _ _ _ eq_refl Hne H16 H12).
Qed.

(** ** What the constructor does on damaged archives *)

(** X1.  Without an EOCD record the constructor always leaves its loop:
    given more iterations than the buffer has bytes, it returns or throws
    [RangeError]. *)
Theorem fallback_mode_terminates (fuel : nat) (buf : Buffer.t) :
  findEocd buf = -1 ->
  (Z.to_nat (Buffer.length buf) < fuel)%nat ->
  (exists u, Unzipper_constructor fuel buf = Some (Ret u)) \/
  Unzipper_constructor fuel buf = Some (Throw RangeError).
Proof.
  intros Heocd Hfuel.
  destruct (fallbackLoop_terminates buf fuel 0 [] (Z.le_refl 0)) as [r Hr].
  { rewrite Z.sub_0_r. exact Hfuel. }
  rewrite <- (parseEntries_fallback _ _ Heocd) in Hr.
  pose proof (constructor_of_parse _ _ _ Hr) as Hc.
  destruct r as [es | e].
  - left. eexists. exact Hc.
  - right. rewrite Hc. rewrite (constructor_Throw _ _ _ Hc). reflexivity.
Qed.

(** X3.  Without an EOCD record, when the scan has gone through the
    complete headers [hs] and the next signature it finds has fewer than 30
    bytes after its start, the constructor throws [RangeError]: the entries
    of [hs] are not returned. *)
Theorem truncated_local_header_throws (fuel : nat) (buf : Buffer.t)
    (hs : list Z) (cur h : Z) :
  findEocd buf = -1 ->
  fallbackReaches buf 0 hs cur ->
  cur < Buffer.length buf - 4 ->
  Buffer.indexOf buf localSig cur = h -> h <> -1 ->
  Buffer.length buf < h + 30 ->
  (List.length hs < fuel)%nat ->
  Unzipper_constructor fuel buf = Some (Throw RangeError).
Proof.
  intros Heocd Hreach Hlt Hidx Hne Hcut Hfuel.
  apply (constructor_of_parse fuel buf (Throw RangeError)).
  rewrite (parseEntries_fallback _ _ Heocd).
  replace fuel with (List.length hs + S (fuel - List.length hs - 1))%nat
    by lia.
  destruct (fallbackLoop_prefix buf hs 0 cur []
              (S (fuel - List.length hs - 1)) (Z.le_refl 0) Hreach)
    as [_ ->].
  cbn [fallbackLoop].
  destruct (Z.ltb_spec cur (Buffer.length buf - 4)) as [_ | Hge]; [| lia].
  rewrite (fallbackBody_truncated _ _ _ _ Hidx Hne Hcut). reflexivity.
Qed.

(** X4.  With an EOCD record, when the directory walk has gone through the
    surviving records [cs] and the next record is cut by the end of the
    buffer, carries a local header offset outside the buffer, or points to
    a local header that is cut, the constructor throws [RangeError]: the
    record is not skipped and the entries of [cs] are not returned. *)
Theorem damaged_directory_record_throws (fuel : nat) (buf : Buffer.t)
    (cs : list Z) (c : Z) :
  findEocd buf <> -1 ->
  dirReaches buf
    (u32 buf (findEocd buf + 16) + u32 buf (findEocd buf + 12))
    (u32 buf (findEocd buf + 16)) cs c ->
  c < u32 buf (findEocd buf + 16) + u32 buf (findEocd buf + 12) ->
  Buffer.length buf < c + 4 \/
  (hasSig buf c 0x02014b50 /\
   (Buffer.length buf < c + 46 \/
    Buffer.length buf < u32 buf (c + 42) + 4 \/
    (hasSig buf (u32 buf (c + 42)) 0x04034b50 /\
     Buffer.length buf < u32 buf (c + 42) + 30))) ->
  (List.length cs < fuel)%nat ->
  Unzipper_constructor fuel buf = Some (Throw RangeError).
Proof.
  intros Heocd Hreach Hlt Hcase Hfuel.
  apply (constructor_of_parse fuel buf (Throw RangeError)).
  rewrite (parseEntries_directory_mode _ _ Heocd).
  replace fuel with (List.length cs + S (fuel - List.length cs - 1))%nat
    by lia.
  rewrite (cdLoop_prefix buf _ cs _ c [] _ Hreach).
  cbn [cdLoop].
  destruct (Z.ltb_spec c (u32 buf (findEocd buf + 16)
                          + u32 buf (findEocd buf + 12)))
    as [_ | Hge]; [| lia].
  rewrite (cdBody_out_of_range _ _ _ Hcase). reflexivity.
Qed.

(** X5.  Once an EOCD signature is found the fallback scan is never used:
    when the directory it announces is empty, or does not begin with a
    record signature, the constructor returns no entry, whatever local
    headers the buffer holds. *)
Theorem empty_or_unsigned_directory_lists_nothing (fuel : nat)
    (buf : Buffer.t) :
  findEocd buf <> -1 ->
  u32 buf (findEocd buf + 12) = 0 \/
  (exists v,
      Buffer.readUInt32LE buf (u32 buf (findEocd buf + 16)) = Ret v /\
      v <> 0x02014b50) ->
  (0 < fuel)%nat ->
  exists u,
    Unzipper_constructor fuel buf = Some (Ret u) /\ getEntries u = [].
Proof.
  intros Heocd Hcase Hfuel.
  exists {| entries := [] |}. split; [| reflexivity].
  apply (constructor_of_parse fuel buf (Ret [])).
  rewrite (parseEntries_directory_mode _ _ Heocd).
  apply (cdLoop_complete buf _ [] _ [] fuel); [| exact Hfuel].
  cbn [dirChain].
  destruct Hcase as [Hzero | Hsig]; [left; lia | right; exact Hsig].
Qed.


(** ** A definite outcome, or none *)

Lemma fallbackLoop_more_fuel (buf : Buffer.t) (fuel : nat) :
  forall (cur : Z) (acc : list ZipEntry) (r : completion (list ZipEntry))
         (fuel' : nat),
    fallbackLoop fuel buf cur acc = Some r -> (fuel <= fuel')%nat ->
    fallbackLoop fuel' buf cur acc = Some r.
Proof.
  induction fuel as [| fuel IH]; intros cur acc r fuel' H Hle;
    [discriminate H |].
  destruct fuel' as [| fuel']; [lia |].
  cbn [fallbackLoop] in *.
  destruct (cur <? Buffer.length buf - 4); [| exact H].
  destruct (fallbackBody buf cur acc) as [[| [cur' acc']] | e];
    try exact H.
  apply (IH _ _ _ _ H). lia.
Qed.

Lemma cdLoop_more_fuel (buf : Buffer.t) (cdEnd : Z) (fuel : nat) :
  forall (c : Z) (acc : list ZipEntry) (r : completion (list ZipEntry))
         (fuel' : nat),
    cdLoop fuel buf cdEnd c acc = Some r -> (fuel <= fuel')%nat ->
    cdLoop fuel' buf cdEnd c acc = Some r.
Proof.
  induction fuel as [| fuel IH]; intros c acc r fuel' H Hle;
    [discriminate H |].
  destruct fuel' as [| fuel']; [lia |].
  cbn [cdLoop] in *.
  destruct (c <? cdEnd); [| exact H].
  destruct (cdBody buf c acc) as [[| [c' acc']] | e]; try exact H.
  apply (IH _ _ _ _ H). lia.
Qed.

(** The directory walk leaves its loop within [cdEnd - cdCursor + 1]
    iterations, unless it reaches a record that carries its signature and
    points to four readable bytes that are not a local-header signature;
    from there on it never leaves the loop. *)
Lemma cdLoop_returns_or_never (buf : Buffer.t) (cdEnd : Z) (fuel : nat) :
  forall (c : Z) (acc : list ZipEntry),
    (Z.to_nat (cdEnd - c) < fuel)%nat ->
    (exists r, cdLoop fuel buf cdEnd c acc = Some r) \/
    ((forall fuel', cdLoop fuel' buf cdEnd c acc = None) /\
     exists c' v,
       c <= c' < cdEnd /\ hasSig buf c' 0x02014b50 /\
       Buffer.readUInt32LE buf (u32 buf (c' + 42)) = Ret v /\
       v <> 0x04034b50).
Proof.
  induction fuel as [| fuel IH]; intros c acc Hfuel; [lia |].
  cbn [cdLoop].
  destruct (Z.ltb_spec c cdEnd) as [Hlt | Hge];
    [| left; eexists; reflexivity].
  destruct (cdBody buf c acc) as [[| [c' acc']] | e] eqn:Hbody;
    try (left; eexists; reflexivity).
  destruct (cdBody_Again _ _ _ _ _ Hbody)
    as [(-> & -> & Hsig & v & Hv & Hne) | (_ & -> & ->)].
  - right. split.
    + exact (cdLoop_stuck buf cdEnd c acc Hlt Hbody).
    + exists c, v. repeat split; try assumption; lia.
  - pose proof (u16_range buf (c + 28)).
    pose proof (u16_range buf (c + 30)).
    pose proof (u16_range buf (c + 32)).
    destruct (IH (c + (46 + u16 buf (c + 28) + u16 buf (c + 30)
                       + u16 buf (c + 32)))
                 (acc ++ [dirEntry buf c]) ltac:(lia))
      as [Hr | (Hnever & c' & v & Hc' & Hrest)].
    + left. exact Hr.
    + right. split.
      * intros [| fuel']; [reflexivity |]. cbn [cdLoop].
        destruct (Z.ltb_spec c cdEnd) as [_ | Hge]; [| lia].
        rewrite Hbody. apply Hnever.
      * exists c', v. split; [lia | exact Hrest].
Qed.

(** X2.  On every buffer the constructor either has one outcome, reached
    with any large enough number of iterations, or has none: it never
    returns nor throws, which happens only in directory mode, with a record
    inside the announced directory that carries its signature and points to
    four readable bytes other than a local-header signature. *)
Theorem constructor_has_one_outcome_or_none (buf : Buffer.t) :
  (exists fuel0 r,
      forall fuel, (fuel0 <= fuel)%nat ->
                   Unzipper_constructor fuel buf = Some r) \/
  ((forall fuel, Unzipper_constructor fuel buf = None) /\
   findEocd buf <> -1 /\
   exists c v,
     u32 buf (findEocd buf + 16) <= c
     < u32 buf (findEocd buf + 16) + u32 buf (findEocd buf + 12) /\
     hasSig buf c 0x02014b50 /\
     Buffer.readUInt32LE buf (u32 buf (c + 42)) = Ret v /\
     v <> 0x04034b50).
Proof.
  pose proof (length_nonneg buf) as Hlen.
  set (fuel0 := S (Z.to_nat (Buffer.length buf + 2 ^ 32))).
  destruct (Z.eq_dec (findEocd buf) (-1)) as [Heq | Hne].
  - left.
    destruct (fallbackLoop_terminates buf fuel0 0 [] (Z.le_refl 0))
      as [r Hr]; [unfold fuel0; lia |].
    eexists fuel0, _. intros fuel Hfuel.
    apply (constructor_of_parse fuel buf r).
    rewrite (parseEntries_fallback _ _ Heq).
    exact (fallbackLoop_more_fuel _ _ _ _ _ _ Hr Hfuel).
  - pose proof (u32_range buf (findEocd buf + 16)) as H16.
    pose proof (u32_range buf (findEocd buf + 12)) as H12.
    destruct (cdLoop_returns_or_never buf
                (u32 buf (findEocd buf + 16) + u32 buf (findEocd buf + 12))
                fuel0 (u32 buf (findEocd buf + 16)) [])
      as [[r Hr] | (Hnever & c & v & Hrest)]; [unfold fuel0; lia | |].
    + left. eexists fuel0, _. intros fuel Hfuel.
      apply (constructor_of_parse fuel buf r).
      rewrite (parseEntries_directory_mode _ _ Hne).
      exact (cdLoop_more_fuel _ _ _ _ _ _ _ Hr Hfuel).
    + right. split; [| split; [exact Hne | exists c, v; exact Hrest]].
      intros fuel. apply constructor_None.
      rewrite (parseEntries_directory_mode _ _ Hne). apply Hnever.
Qed.

(** ** How many entries *)

Lemma fallbackChain_count (buf : Buffer.t) :
  forall (hs : list Z) (cur : Z),
    0 <= cur -> fallbackChain buf cur hs -> hs <> [] ->
    cur + 30 * Z.of_nat (List.length hs) <= Buffer.length buf.
Proof.
  induction hs as [| h hs IH]; intros cur Hcur Hchain Hne; [contradiction |].
  destruct Hchain as (_ & Hidx & Hh & Hin & Hrest).
  destruct (indexOf_found buf localSig cur h Hcur Hidx Hh) as (Hr & _ & _).
  pose proof (localPayloadEnd_lower buf h) as Hlow.
  destruct hs as [| h' hs].
  - cbn [List.length]. lia.
  - specialize (IH (localPayloadEnd buf h) ltac:(lia) Hrest ltac:(discriminate)).
    cbn [List.length] in *. lia.
Qed.

Lemma dirChain_count (buf : Buffer.t) (cdEnd : Z) :
  forall (cs : list Z) (c : Z),
    dirChain buf cdEnd c cs -> cs <> [] ->
    0 <= c /\
    c + 46 * Z.of_nat (List.length cs) <= Buffer.length buf /\
    c + 46 * (Z.of_nat (List.length cs) - 1) < cdEnd.
Proof.
  induction cs as [| c0 cs IH]; intros c Hchain Hne; [contradiction |].
  destruct Hchain as (Hlt & -> & Hrec & Hrest).
  destruct Hrec as (_ & Hc0 & Hc46 & _).
  pose proof (u16_range buf (c + 28)).
  pose proof (u16_range buf (c + 30)).
  pose proof (u16_range buf (c + 32)).
  destruct cs as [| c1 cs].
  - cbn [List.length]. lia.
  - specialize (IH _ Hrest ltac:(discriminate)).
    unfold nextRecord in IH. cbn [List.length] in *. lia.
Qed.

(** X6.  The number of entries is bounded by the size of the buffer: a
    returned list of [n] entries needs [30 * n] bytes in fallback mode, and
    in directory mode, where [n] records of at least 46 bytes lie between
    the directory offset and the end of the buffer, [46 * n] bytes, with
    [46 * (n - 1)] below the announced directory size. *)
Theorem entry_count_is_bounded (fuel : nat) (buf : Buffer.t) (u : Unzipper) :
  Unzipper_constructor fuel buf = Some (Ret u) ->
  let n := Z.of_nat (List.length (getEntries u)) in
  30 * n <= Buffer.length buf /\
  (findEocd buf <> -1 -> 0 < n ->
   u32 buf (findEocd buf + 16) + 46 * n <= Buffer.length buf /\
   46 * (n - 1) < u32 buf (findEocd buf + 12)).
Proof.
  intros H n.
  destruct (constructor_visited _ _ _ H) as (os & Hvis & Hres & _).
  assert (Hn : n = Z.of_nat (List.length os)).
  { unfold n. rewrite Hres, length_map. reflexivity. }
  pose proof (length_nonneg buf) as Hlen.
  unfold visited in Hvis.
  destruct (Z.eqb_spec (findEocd buf) (-1)) as [Heq | Hne].
  - split; [| intros Hc; contradiction].
    destruct Hvis as (hs & -> & Hchain). rewrite length_map in Hn.
    destruct hs as [| h hs]; [cbn in Hn; lia |].
    pose proof (fallbackChain_count buf _ 0 (Z.le_refl 0) Hchain
                  ltac:(discriminate)).
    lia.
  - destruct Hvis as (cs & -> & Hchain). rewrite length_map in Hn.
    destruct cs as [| c cs]; [cbn in Hn; split; [lia | intros; lia] |].
    pose proof (dirChain_count buf _ _ _ Hchain ltac:(discriminate))
      as (H0 & Hfit & Hsize).
    split; [lia | intros _ _; lia].
Qed.

(** ** Listing does not decompress *)

Lemma listed_app (es es' : list ZipEntry) (e e' : ZipEntry) :
  map listed es = map listed es' -> listed e = listed e' ->
  map listed (es ++ [e]) = map listed (es' ++ [e']).
Proof.
  intros Hes He. rewrite !map_app. cbn [map]. rewrite Hes, He. reflexivity.
Qed.

Section OtherZlib.

Variables raw zlibWrapped gzipWrapped : Buffer.t -> completion Buffer.t.

Lemma cdBody_sameStep (buf : Buffer.t) (c : Z) (es es' : list ZipEntry) :
  map listed es = map listed es' ->
  sameStep (cdBody (rt := withZlib rt raw zlibWrapped gzipWrapped) buf c es') (cdBody buf c es).
Proof.
  intros Hes. unfold cdBody.
  destruct (Buffer.readUInt32LE buf c) as [sig | e]; cbn [bind];
    [| reflexivity].
  destruct (negb (sig =? 0x02014b50)); [exact I |].
  destruct (Buffer.readUInt16LE buf (c + 10)) as [m | e]; cbn [bind];
    [| reflexivity].
  destruct (Buffer.readUInt32LE buf (c + 20)) as [cs | e]; cbn [bind];
    [| reflexivity].
  destruct (Buffer.readUInt32LE buf (c + 24)) as [us | e]; cbn [bind];
    [| reflexivity].
  destruct (Buffer.readUInt16LE buf (c + 28)) as [nl | e]; cbn [bind];
    [| reflexivity].
  destruct (Buffer.readUInt16LE buf (c + 30)) as [el | e]; cbn [bind];
    [| reflexivity].
  destruct (Buffer.readUInt16LE buf (c + 32)) as [cl | e]; cbn [bind];
    [| reflexivity].
  destruct (Buffer.readUInt32LE buf (c + 42)) as [off | e]; cbn [bind];
    [| reflexivity].
  destruct (Buffer.readUInt32LE buf off) as [lf | e]; cbn [bind];
    [| reflexivity].
  destruct (negb (lf =? 0x04034b50)).
  { split; [reflexivity | symmetry; exact Hes]. }
  destruct (Buffer.readUInt16LE buf (off + 26)) as [lnl | e]; cbn [bind];
    [| reflexivity].
  destruct (Buffer.readUInt16LE buf (off + 28)) as [lel | e]; cbn [bind];
    [| reflexivity].
  split; [reflexivity |].
  apply listed_app; [symmetry; exact Hes | reflexivity].
Qed.

Lemma fallbackBody_sameStep (buf : Buffer.t) (cur : Z)
    (es es' : list ZipEntry) :
  map listed es = map listed es' ->
  sameStep (fallbackBody (rt := withZlib rt raw zlibWrapped gzipWrapped) buf cur es') (fallbackBody buf cur es).
Proof.
  intros Hes. unfold fallbackBody.
  destruct (Buffer.indexOf buf localSig cur =? -1); [exact I |].
  set (h := Buffer.indexOf buf localSig cur).
  destruct (Buffer.readUInt16LE buf (h + 8)) as [m | e]; cbn [bind];
    [| reflexivity].
  destruct (Buffer.readUInt32LE buf (h + 18)) as [cs | e]; cbn [bind];
    [| reflexivity].
  destruct (Buffer.readUInt32LE buf (h + 22)) as [us | e]; cbn [bind];
    [| reflexivity].
  destruct (Buffer.readUInt16LE buf (h + 26)) as [nl | e]; cbn [bind];
    [| reflexivity].
  destruct (Buffer.readUInt16LE buf (h + 28)) as [el | e]; cbn [bind];
    [| reflexivity].
  split; [reflexivity |].
  apply listed_app; [symmetry; exact Hes | reflexivity].
Qed.

Lemma cdLoop_sameResult (buf : Buffer.t) (cdEnd : Z) (fuel : nat) :
  forall (c : Z) (es es' : list ZipEntry),
    map listed es = map listed es' ->
    sameResult (cdLoop (rt := withZlib rt raw zlibWrapped gzipWrapped) fuel buf cdEnd c es')
               (cdLoop fuel buf cdEnd c es).
Proof.
  induction fuel as [| fuel IH]; intros c es es' Hes; [exact I |].
  cbn [cdLoop].
  destruct (c <? cdEnd); [| symmetry; exact Hes].
  pose proof (cdBody_sameStep buf c es es' Hes) as Hstep.
  destruct (cdBody (rt := withZlib rt raw zlibWrapped gzipWrapped) buf c es') as [[| [c1 es1]] | e1];
    destruct (cdBody buf c es) as [[| [c2 es2]] | e2];
    cbn [sameStep] in Hstep; try contradiction.
  - symmetry; exact Hes.
  - destruct Hstep as [-> Hes']. apply IH. symmetry; exact Hes'.
  - exact Hstep.
Qed.

Lemma fallbackLoop_sameResult (buf : Buffer.t) (fuel : nat) :
  forall (cur : Z) (es es' : list ZipEntry),
    map listed es = map listed es' ->
    sameResult (fallbackLoop (rt := withZlib rt raw zlibWrapped gzipWrapped) fuel buf cur es')
               (fallbackLoop fuel buf cur es).
Proof.
  induction fuel as [| fuel IH]; intros cur es es' Hes; [exact I |].
  cbn [fallbackLoop].
  destruct (cur <? Buffer.length buf - 4); [| symmetry; exact Hes].
  pose proof (fallbackBody_sameStep buf cur es es' Hes) as Hstep.
  destruct (fallbackBody (rt := withZlib rt raw zlibWrapped gzipWrapped) buf cur es') as [[| [c1 es1]] | e1];
    destruct (fallbackBody buf cur es) as [[| [c2 es2]] | e2];
    cbn [sameStep] in Hstep; try contradiction.
  - symmetry; exact Hes.
  - destruct Hstep as [-> Hes']. apply IH. symmetry; exact Hes'.
  - exact Hstep.
Qed.

Lemma parseEntries_sameResult (fuel : nat) (buf : Buffer.t) :
  sameResult (parseEntries (rt := withZlib rt raw zlibWrapped gzipWrapped) fuel buf) (parseEntries fuel buf).
Proof.
  unfold parseEntries.
  destruct (negb (findEocd buf =? -1)).
  - destruct (Buffer.readUInt32LE buf (findEocd buf + 16)); [| reflexivity].
    destruct (Buffer.readUInt32LE buf (findEocd buf + 12)); [| reflexivity].
    apply cdLoop_sameResult. reflexivity.
  - apply fallbackLoop_sameResult. reflexivity.
Qed.

End OtherZlib.

(** X7.  Listing does not decompress: whether the constructor returns,
    throws or keeps running, the exception it throws and the names and
    directory flags it lists are the same whatever the three decompressors
    of [zlib] do. *)
Theorem listing_does_not_depend_on_zlib (fuel : nat) (buf : Buffer.t)
    (raw zlibWrapped gzipWrapped : Buffer.t -> completion Buffer.t) :
  listingOf
    (Unzipper_constructor (rt := withZlib rt raw zlibWrapped gzipWrapped)
       fuel buf)
  = listingOf (Unzipper_constructor fuel buf).
Proof.
  pose proof (parseEntries_sameResult raw zlibWrapped gzipWrapped fuel buf)
    as Hsame.
  unfold Unzipper_constructor.
  destruct (parseEntries
              (rt := withZlib rt raw zlibWrapped gzipWrapped) fuel buf)
    as [[es1 | e1] |];
    destruct (parseEntries fuel buf) as [[es2 | e2] |];
    cbn [sameResult] in Hsame; try contradiction; cbn [listingOf getEntries entries].
  - rewrite Hsame. reflexivity.
  - rewrite Hsame. reflexivity.
  - reflexivity.
Qed.

(** ** Names *)

Lemma toString_cases (buf : Buffer.t) (start n : Z) :
  0 <= start -> 0 <= n ->
  (n = 0 \/ Buffer.length buf <= start ->
   toString buf start (start + n) = EmptyString) /\
  (0 < n -> start < Buffer.length buf ->
   toString buf start (start + n) =
   utf8Slice (Buffer.window buf start
                (Z.min (start + n) (Buffer.length buf)))).
Proof.
  intros Hs Hn. pose proof (length_nonneg buf) as Hlen.
  unfold toString. split.
  - intros Hcase.
    destruct (Z.ltb_spec 0 start) as [Hpos | Hzero];
      destruct (Z.geb_spec start (Buffer.length buf)) as [Hge | Hlt];
      cbn [andb]; try reflexivity;
      destruct (Z.leb_spec start 0) as [H0 | H0];
      destruct (Z.gtb_spec (start + n) (Buffer.length buf)) as [Hg | Hg];
      match goal with
      | |- (if ?a <=? ?b then _ else _) = _ =>
          destruct (Z.leb_spec a b); [reflexivity | lia]
      end.
  - intros Hpos Hin.
    destruct (Z.ltb_spec 0 start) as [Hp | Hzero];
      destruct (Z.geb_spec start (Buffer.length buf)) as [Hge | Hlt];
      cbn [andb]; try lia;
      destruct (Z.leb_spec start 0) as [H0 | H0]; try lia;
      destruct (Z.gtb_spec (start + n) (Buffer.length buf)) as [Hg | Hg];
      match goal with
      | |- (if ?a <=? ?b then _ else _) = _ =>
          destruct (Z.leb_spec a b); [lia |]
      end;
      try (replace start with 0 by lia);
      do 2 f_equal; lia.
Qed.

(** X8.  The name of an entry is decoded from the bytes of the buffer that
    follow the fixed part of its header, at most as many as the header's
    name length and never from beyond the end of the buffer; a name length
    of 0, or a header that ends with the buffer, gives the empty name,
    which is not a directory. *)
Theorem entry_name_comes_from_inside_the_buffer (fuel : nat)
    (buf : Buffer.t) (u : Unzipper) :
  Unzipper_constructor fuel buf = Some (Ret u) ->
  exists os,
    getEntries u = map (entryOf buf) os /\
    Forall
      (fun o =>
         intact buf o /\
         let start := nameStartOf o in
         let n := nameLengthOf buf o in
         let len := Buffer.length buf in
         0 <= start <= len /\
         (n = 0 \/ start = len ->
          entryName (entryOf buf o) = EmptyString /\
          isDirectory (entryOf buf o) = false) /\
         (0 < n -> start < len ->
          entryName (entryOf buf o) =
            utf8Slice (Buffer.window buf start (Z.min (start + n) len)) /\
          Buffer.length (Buffer.window buf start (Z.min (start + n) len)) =
            Z.min n (len - start)))
      os.
Proof.
  intros H.
  destruct (constructor_visited _ _ _ H) as (os & _ & Hres & Hall).
  exists os. split; [exact Hres |].
  eapply Forall_impl; [| exact Hall]. cbv beta zeta.
  intros o Hint. split; [exact Hint |].
  assert (Hname : entryName (entryOf buf o) =
                  toString buf (nameStartOf o)
                    (nameStartOf o + nameLengthOf buf o)).
  { destruct o; reflexivity. }
  assert (Hdir : isDirectory (entryOf buf o) =
                 endsWith (entryName (entryOf buf o)) "/").
  { destruct o; reflexivity. }
  assert (Hstart : 0 <= nameStartOf o <= Buffer.length buf).
  { destruct o as [c | h]; cbn [intact nameStartOf] in *.
    - destruct Hint as (_ & Hc0 & Hc46 & _). lia.
    - destruct Hint as [Hat Hin].
      apply occursAt_range in Hat; [lia | exact localSig_nonempty]. }
  assert (Hn : 0 <= nameLengthOf buf o).
  { destruct o as [c | h]; cbn [nameLengthOf]; apply u16_range. }
  destruct (toString_cases buf (nameStartOf o) (nameLengthOf buf o)
              ltac:(lia) Hn) as [Hempty Hfull].
  split; [exact Hstart |]. split.
  - intros Hcase.
    assert (He : entryName (entryOf buf o) = EmptyString).
    { rewrite Hname. apply Hempty. destruct Hcase; [left; assumption | right; lia]. }
    split; [exact He |]. rewrite Hdir, He. reflexivity.
  - intros Hpos Hin. split.
    + rewrite Hname. apply Hfull; assumption.
    + rewrite window_length by lia. lia.
Qed.

End Outcomes.

(** * Reading back what the writer wrote *)

(** ** Little-endian fields *)

Lemma byteVal_byteOfZ (z : Z) : byteVal (byteOfZ z) = z mod 256.
Proof.
  unfold byteVal, byteOfZ.
  pose proof (Z.mod_pos_bound z 256 ltac:(lia)) as Hmod.
  destruct (Byte.of_N (Z.to_N (z mod 256))) as [b |] eqn:E.
  - apply Byte.to_of_N in E. rewrite E. lia.
  - apply Byte.of_N_None_iff in E. lia.
Qed.

Lemma le16_value (v : Z) :
  0 <= v < 2 ^ 16 ->
  byteVal (byteOfZ v) + byteVal (byteOfZ (v / 2 ^ 8)) * 2 ^ 8 = v.
Proof.
  intros Hv. rewrite !byteVal_byteOfZ.
  change (2 ^ 8) with 256. change (2 ^ 16) with 65536 in Hv.
  Z.div_mod_to_equations. lia.
Qed.

Lemma le32_value (v : Z) :
  0 <= v < 2 ^ 32 ->
  byteVal (byteOfZ v) + byteVal (byteOfZ (v / 2 ^ 8)) * 2 ^ 8
  + byteVal (byteOfZ (v / 2 ^ 16)) * 2 ^ 16
  + byteVal (byteOfZ (v / 2 ^ 24)) * 2 ^ 24 = v.
Proof.
  intros Hv. rewrite !byteVal_byteOfZ.
  change (2 ^ 8) with 256. change (2 ^ 16) with 65536.
  change (2 ^ 24) with 16777216. change (2 ^ 32) with 4294967296 in Hv.
  Z.div_mod_to_equations. lia.
Qed.

Lemma length_app_Z (a b : list byte) :
  Buffer.length (a ++ b) = Buffer.length a + Buffer.length b.
Proof. unfold Buffer.length. rewrite length_app. lia. Qed.

Lemma ascii_bytes_length (s : string) :
  Buffer.length (ascii_bytes s) = Z.of_nat (String.length s).
Proof.
  unfold Buffer.length, ascii_bytes, list_byte_of_string.
  rewrite length_map. f_equal.
  induction s as [| c s IH]; simpl; [reflexivity | rewrite IH; reflexivity].
Qed.

(** Bytes read at a known place of a buffer [P ++ R]. *)
Lemma get_in_suffix (P R l : list byte) (k i : nat) :
  skipn k R = l ->
  Buffer.get (P ++ R) (Buffer.length P + Z.of_nat k + Z.of_nat i) =
  option_map byteVal (nth_error l i).
Proof.
  intros <-.
  replace (Buffer.length P + Z.of_nat k + Z.of_nat i)
    with (Buffer.length P + Z.of_nat (k + i)) by lia.
  rewrite get_app_right by lia.
  unfold Buffer.get.
  destruct (Z.ltb_spec (Z.of_nat (k + i)) 0); [lia |].
  rewrite Nat2Z.id, nth_error_skipn. reflexivity.
Qed.

Lemma read16_in_suffix (P R rest : list byte) (k : nat) (a b : byte) :
  skipn k R = a :: b :: rest ->
  Buffer.readUInt16LE (P ++ R) (Buffer.length P + Z.of_nat k) =
  Ret (byteVal a + byteVal b * 2 ^ 8).
Proof.
  intros Hk. unfold Buffer.readUInt16LE.
  pose proof (get_in_suffix P R _ k 0 Hk) as H0.
  pose proof (get_in_suffix P R _ k 1 Hk) as H1.
  rewrite Z.add_0_r in H0. cbn [Z.of_nat Pos.of_succ_nat] in H1.
  rewrite H0, H1. reflexivity.
Qed.

Lemma read32_in_suffix (P R rest : list byte) (k : nat) (a b c d : byte) :
  skipn k R = a :: b :: c :: d :: rest ->
  Buffer.readUInt32LE (P ++ R) (Buffer.length P + Z.of_nat k) =
  Ret (byteVal a + byteVal b * 2 ^ 8 + byteVal c * 2 ^ 16
       + byteVal d * 2 ^ 24).
Proof.
  intros Hk. unfold Buffer.readUInt32LE.
  pose proof (get_in_suffix P R _ k 0 Hk) as H0.
  pose proof (get_in_suffix P R _ k 1 Hk) as H1.
  pose proof (get_in_suffix P R _ k 2 Hk) as H2.
  pose proof (get_in_suffix P R _ k 3 Hk) as H3.
  rewrite Z.add_0_r in H0.
  cbn [Z.of_nat Pos.of_succ_nat Pos.succ] in H1, H2, H3.
  replace (Buffer.length P + Z.of_nat k + 1 + 1)
    with (Buffer.length P + Z.of_nat k + 2) by lia.
  rewrite H0, H1, H2, H3. reflexivity.
Qed.

Lemma window_app_middle (P M Q : list byte) :
  Buffer.window (P ++ M ++ Q) (Buffer.length P)
    (Buffer.length P + Buffer.length M) = M.
Proof.
  unfold Buffer.window, Buffer.length.
  rewrite Nat2Z.id.
  replace (Z.to_nat (Z.of_nat (List.length P) + Z.of_nat (List.length M)
                     - Z.of_nat (List.length P)))
    with (List.length M) by lia.
  rewrite skipn_app, skipn_all, Nat.sub_diag. cbn [app skipn].
  rewrite firstn_app, firstn_all, Nat.sub_diag. cbn [firstn].
  apply app_nil_r.
Qed.

(** ** The headers the writer lays down *)

Lemma localHeader_parts (method compressedSize uncompressedSize : Z)
    (name : string) (extra : list byte) :
  localHeader method compressedSize uncompressedSize name extra =
  localFixed method compressedSize uncompressedSize
    (Z.of_nat (String.length name)) (Z.of_nat (List.length extra))
  ++ ascii_bytes name ++ extra.
Proof. reflexivity. Qed.

Lemma directoryRecord_parts (method compressedSize uncompressedSize : Z)
    (name : string) (extra : list byte) (comment : string) (offset : Z) :
  directoryRecord method compressedSize uncompressedSize name extra comment
    offset =
  recordFixed method compressedSize uncompressedSize
    (Z.of_nat (String.length name)) (Z.of_nat (List.length extra))
    (Z.of_nat (String.length comment)) offset
  ++ ascii_bytes name ++ extra ++ ascii_bytes comment.
Proof. reflexivity. Qed.

Lemma memberLocal_length (m : member) :
  Buffer.length (memberLocal m) =
  30 + Z.of_nat (String.length (mName m)) + Buffer.length (mLocalExtra m)
  + Buffer.length (mData m).
Proof.
  unfold memberLocal. rewrite localHeader_parts.
  rewrite !length_app_Z, ascii_bytes_length.
  change (Buffer.length (localFixed _ _ _ _ _)) with 30. lia.
Qed.

Lemma memberRecord_length (m : member) (offset : Z) :
  Buffer.length (memberRecord m offset) =
  46 + Z.of_nat (String.length (mName m)) + Buffer.length (mDirExtra m)
  + Z.of_nat (String.length (mComment m)).
Proof.
  unfold memberRecord. rewrite directoryRecord_parts.
  rewrite !length_app_Z, !ascii_bytes_length.
  change (Buffer.length (recordFixed _ _ _ _ _ _ _)) with 46. lia.
Qed.

Lemma skipn_prefix (P R : list byte) :
  skipn (Z.to_nat (Buffer.length P)) (P ++ R) = R.
Proof.
  unfold Buffer.length. rewrite Nat2Z.id, skipn_app, skipn_all, Nat.sub_diag.
  reflexivity.
Qed.

(** The fields of a member's local header, read at the place the header
    was written. *)
Lemma local_header_fields (P Q : list byte) (m : member) :
  memberFits m ->
  let A := P ++ memberLocal m ++ Q in
  let h := Buffer.length P in
  hasSig A h 0x04034b50 /\
  Buffer.occursAt localSig A h = true /\
  u16 A (h + 8) = mMethod m /\
  u32 A (h + 18) = Buffer.length (mData m) /\
  u16 A (h + 26) = Z.of_nat (String.length (mName m)) /\
  u16 A (h + 28) = Buffer.length (mLocalExtra m) /\
  h + Buffer.length (memberLocal m) <= Buffer.length A.
Proof.
  intros (Hm & Hname & Hdata & Hlx & _ & _) A h.
  pose proof (length_nonneg P) as HP.
  pose proof (length_nonneg (mData m)) as HD.
  pose proof (length_nonneg (mLocalExtra m)) as HX.
  pose proof (length_nonneg Q) as HQ.
  assert (Hsig : Buffer.readUInt32LE A h = Ret 0x04034b50).
  { replace h with (h + Z.of_nat 0) by (simpl; lia).
    exact (read32_in_suffix P (memberLocal m ++ Q) _ 0 _ _ _ _ eq_refl). }
  split; [exact Hsig |].
  split.
  { unfold Buffer.occursAt, A, h. rewrite skipn_prefix.
    destruct (Z.leb_spec 0 (Buffer.length P)); [reflexivity | lia]. }
  split.
  { apply readUInt16LE_u16.
    etransitivity;
      [exact (read16_in_suffix P (memberLocal m ++ Q) _ 8 _ _ eq_refl) |].
    f_equal. apply le16_value. lia. }
  split.
  { apply readUInt32LE_u32.
    etransitivity;
      [exact (read32_in_suffix P (memberLocal m ++ Q) _ 18 _ _ _ _ eq_refl) |].
    f_equal. apply le32_value. lia. }
  split.
  { apply readUInt16LE_u16.
    etransitivity;
      [exact (read16_in_suffix P (memberLocal m ++ Q) _ 26 _ _ eq_refl) |].
    f_equal. apply le16_value. lia. }
  split.
  { apply readUInt16LE_u16.
    etransitivity;
      [exact (read16_in_suffix P (memberLocal m ++ Q) _ 28 _ _ eq_refl) |].
    f_equal. apply le16_value. lia. }
  unfold A, h. rewrite !length_app_Z. lia.
Qed.

Lemma slice_app_middle (P M Q : list byte) :
  Buffer.slice (P ++ M ++ Q) (Buffer.length P)
    (Buffer.length P + Buffer.length M) = M.
Proof.
  pose proof (length_nonneg P). pose proof (length_nonneg M).
  pose proof (length_nonneg Q).
  rewrite slice_clamped by lia.
  rewrite !length_app_Z.
  rewrite !Z.min_l by lia.
  apply window_app_middle.
Qed.

Section ReadBack.

Context {rt : NodeRuntime}.

Lemma name_decoded (P Q : list byte) (name : string) :
  toString (P ++ ascii_bytes name ++ Q) (Buffer.length P)
    (Buffer.length P + Z.of_nat (String.length name)) =
  decodedName name.
Proof.
  pose proof (length_nonneg P) as HP. pose proof (length_nonneg Q) as HQ.
  destruct (toString_cases (P ++ ascii_bytes name ++ Q) (Buffer.length P)
              (Z.of_nat (String.length name)) HP ltac:(lia))
    as [Hempty Hfull].
  destruct name as [| c name].
  - apply Hempty. left. reflexivity.
  - rewrite Hfull.
    + cbn [decodedName]. f_equal.
      rewrite <- ascii_bytes_length.
      rewrite Z.min_l by (rewrite !length_app_Z; lia).
      apply window_app_middle.
    + cbn [String.length]. lia.
    + rewrite !length_app_Z, ascii_bytes_length. cbn [String.length]. lia.
Qed.

(** The entry that the fallback scan builds from a member's local header,
    and where the scan resumes. *)
Lemma local_header_entry (P Q : list byte) (m : member) :
  memberFits m ->
  let A := P ++ memberLocal m ++ Q in
  let h := Buffer.length P in
  localEntry A h = memberEntry m /\
  localPayloadEnd A h = h + Buffer.length (memberLocal m) /\
  Buffer.slice A
    (h + 30 + u16 A (h + 26) + u16 A (h + 28))
    (h + 30 + u16 A (h + 26) + u16 A (h + 28) + Buffer.length (mData m))
  = mData m.
Proof.
  intros Hfit A h.
  destruct (local_header_fields P Q m Hfit)
    as (_ & _ & Hmethod & Hsize & Hname & Hextra & _).
  fold A h in Hmethod, Hsize, Hname, Hextra.
  assert (HA1 : A = (P ++ localFixed (mMethod m) (Buffer.length (mData m))
                            (mUncompressedSize m)
                            (Z.of_nat (String.length (mName m)))
                            (Z.of_nat (List.length (mLocalExtra m))))
                    ++ ascii_bytes (mName m)
                    ++ (mLocalExtra m ++ mData m ++ Q)).
  { unfold A, memberLocal. rewrite localHeader_parts.
    rewrite <- !app_assoc. reflexivity. }
  assert (HA2 : A = (P ++ localFixed (mMethod m) (Buffer.length (mData m))
                            (mUncompressedSize m)
                            (Z.of_nat (String.length (mName m)))
                            (Z.of_nat (List.length (mLocalExtra m)))
                       ++ ascii_bytes (mName m) ++ mLocalExtra m)
                    ++ mData m ++ Q).
  { unfold A, memberLocal. rewrite localHeader_parts.
    rewrite <- !app_assoc. reflexivity. }
  assert (Hstart1 : h + 30 =
            Buffer.length
              (P ++ localFixed (mMethod m) (Buffer.length (mData m))
                      (mUncompressedSize m)
                      (Z.of_nat (String.length (mName m)))
                      (Z.of_nat (List.length (mLocalExtra m))))).
  { rewrite length_app_Z. reflexivity. }
  assert (Hstart2 :
            h + 30 + Z.of_nat (String.length (mName m))
            + Buffer.length (mLocalExtra m) =
            Buffer.length
              (P ++ localFixed (mMethod m) (Buffer.length (mData m))
                      (mUncompressedSize m)
                      (Z.of_nat (String.length (mName m)))
                      (Z.of_nat (List.length (mLocalExtra m)))
                 ++ ascii_bytes (mName m) ++ mLocalExtra m)).
  { rewrite !length_app_Z, ascii_bytes_length.
    change (Buffer.length (localFixed _ _ _ _ _)) with 30. fold h. lia. }
  assert (Hslice :
            Buffer.slice A
              (h + 30 + Z.of_nat (String.length (mName m))
               + Buffer.length (mLocalExtra m))
              (h + 30 + Z.of_nat (String.length (mName m))
               + Buffer.length (mLocalExtra m) + Buffer.length (mData m))
            = mData m).
  { rewrite Hstart2. rewrite HA2 at 1. apply slice_app_middle. }
  assert (Htext :
            toString A (h + 30)
              (h + 30 + Z.of_nat (String.length (mName m)))
            = decodedName (mName m)).
  { rewrite Hstart1. rewrite HA1 at 1. apply name_decoded. }
  split; [| split].
  - unfold localEntry, localPayloadEnd, localPayloadStart, memberEntry.
    rewrite Hmethod, Hsize, Hname, Hextra, Hslice, Htext. reflexivity.
  - unfold localPayloadEnd, localPayloadStart.
    rewrite Hsize, Hname, Hextra, memberLocal_length. lia.
  - rewrite Hname, Hextra. exact Hslice.
Qed.

(** The fields of a member's directory record, read at the place the
    record was written. *)
Lemma record_fields (P Q : list byte) (m : member) (offset : Z) :
  memberFits m -> 0 <= offset < 2 ^ 32 ->
  let A := P ++ memberRecord m offset ++ Q in
  let c := Buffer.length P in
  hasSig A c 0x02014b50 /\
  u16 A (c + 10) = mMethod m /\
  u32 A (c + 20) = Buffer.length (mData m) /\
  u16 A (c + 28) = Z.of_nat (String.length (mName m)) /\
  u16 A (c + 30) = Buffer.length (mDirExtra m) /\
  u16 A (c + 32) = Z.of_nat (String.length (mComment m)) /\
  u32 A (c + 42) = offset /\
  c + Buffer.length (memberRecord m offset) <= Buffer.length A /\
  toString A (c + 46) (c + 46 + Z.of_nat (String.length (mName m)))
    = decodedName (mName m).
Proof.
  intros (Hm & Hname & Hdata & _ & Hdx & Hcomment) Hoff A c.
  pose proof (length_nonneg P) as HP.
  pose proof (length_nonneg (mData m)) as HD.
  pose proof (length_nonneg (mDirExtra m)) as HX.
  pose proof (length_nonneg Q) as HQ.
  split.
  { unfold hasSig. replace c with (c + Z.of_nat 0) by (simpl; lia).
    exact (read32_in_suffix P (memberRecord m offset ++ Q) _ 0 _ _ _ _
             eq_refl). }
  split.
  { apply readUInt16LE_u16. etransitivity;
      [exact (read16_in_suffix P (memberRecord m offset ++ Q) _ 10 _ _
                eq_refl) |].
    f_equal. apply le16_value. lia. }
  split.
  { apply readUInt32LE_u32. etransitivity;
      [exact (read32_in_suffix P (memberRecord m offset ++ Q) _ 20 _ _ _ _
                eq_refl) |].
    f_equal. apply le32_value. lia. }
  split.
  { apply readUInt16LE_u16. etransitivity;
      [exact (read16_in_suffix P (memberRecord m offset ++ Q) _ 28 _ _
                eq_refl) |].
    f_equal. apply le16_value. lia. }
  split.
  { apply readUInt16LE_u16. etransitivity;
      [exact (read16_in_suffix P (memberRecord m offset ++ Q) _ 30 _ _
                eq_refl) |].
    f_equal. apply le16_value. lia. }
  split.
  { apply readUInt16LE_u16. etransitivity;
      [exact (read16_in_suffix P (memberRecord m offset ++ Q) _ 32 _ _
                eq_refl) |].
    f_equal. apply le16_value. lia. }
  split.
  { apply readUInt32LE_u32. etransitivity;
      [exact (read32_in_suffix P (memberRecord m offset ++ Q) _ 42 _ _ _ _
                eq_refl) |].
    f_equal. apply le32_value. lia. }
  split.
  { unfold A, c. rewrite !length_app_Z. lia. }
  assert (HA : A = (P ++ recordFixed (mMethod m) (Buffer.length (mData m))
                          (mUncompressedSize m)
                          (Z.of_nat (String.length (mName m)))
                          (Z.of_nat (List.length (mDirExtra m)))
                          (Z.of_nat (String.length (mComment m))) offset)
                   ++ ascii_bytes (mName m)
                   ++ (mDirExtra m ++ ascii_bytes (mComment m) ++ Q)).
  { unfold A, memberRecord. rewrite directoryRecord_parts.
    rewrite <- !app_assoc. reflexivity. }
  assert (Hstart : c + 46 =
            Buffer.length
              (P ++ recordFixed (mMethod m) (Buffer.length (mData m))
                      (mUncompressedSize m)
                      (Z.of_nat (String.length (mName m)))
                      (Z.of_nat (List.length (mDirExtra m)))
                      (Z.of_nat (String.length (mComment m))) offset)).
  { rewrite length_app_Z. reflexivity. }
  rewrite Hstart. rewrite HA at 1. apply name_decoded.
Qed.

(** The directory walk over the records of the members [ms], written after
    the records [Dpre] of earlier members whose local headers and payloads
    are [Lpre]. *)
Lemma dir_walk_reads_members (A Q : list byte) :
  forall (ms : list member) (Lpre Dpre : list byte) (c cdEnd : Z),
    A = Lpre ++ writeLocals ms ++ Dpre
        ++ writeDirectory ms (Buffer.length Lpre) ++ Q ->
    Forall memberFits ms ->
    Buffer.length Lpre + Buffer.length (writeLocals ms) < 2 ^ 32 ->
    c = Buffer.length Lpre + Buffer.length (writeLocals ms)
        + Buffer.length Dpre ->
    cdEnd = c + Buffer.length (writeDirectory ms (Buffer.length Lpre)) ->
    dirChain A cdEnd c (recordOffsets ms c) /\
    map (dirEntry A) (recordOffsets ms c) = map memberEntry ms.
Proof.
  induction ms as [| m ms IH]; intros Lpre Dpre c cdEnd HA Hfit Hsize Hc Hend.
  - cbn [recordOffsets dirChain map writeDirectory] in *.
    split; [left; change (Buffer.length []) with 0 in Hend; lia | reflexivity].
  - cbn [recordOffsets dirChain map writeDirectory writeLocals] in *.
    apply Forall_cons_iff in Hfit. destruct Hfit as [Hm Hms].
    pose proof (length_nonneg Lpre) as HLpre.
    pose proof (length_nonneg Dpre) as HDpre.
    pose proof (length_nonneg (writeLocals ms)) as HLms.
    pose proof (length_nonneg
                  (writeDirectory ms
                     (Buffer.length Lpre + Buffer.length (memberLocal m))))
      as HDms.
    pose proof (memberLocal_length m) as HlocLen.
    pose proof (memberRecord_length m (Buffer.length Lpre)) as HrecLen.
    pose proof (memberRecord_length m 0) as HrecLen0.
    pose proof (length_nonneg (mData m)) as HD.
    pose proof (length_nonneg (mLocalExtra m)) as HLX.
    pose proof (length_nonneg (mDirExtra m)) as HDX.
    rewrite !length_app_Z in Hsize, Hc, Hend.
    (* the record *)
    assert (HArec :
      A = (Lpre ++ (memberLocal m ++ writeLocals ms) ++ Dpre)
          ++ memberRecord m (Buffer.length Lpre)
          ++ (writeDirectory ms
                (Buffer.length Lpre + Buffer.length (memberLocal m)) ++ Q)).
    { rewrite HA. rewrite <- !app_assoc. reflexivity. }
    assert (Hcrec : c = Buffer.length
                          (Lpre ++ (memberLocal m ++ writeLocals ms) ++ Dpre)).
    { rewrite !length_app_Z. lia. }
    destruct (record_fields
                (Lpre ++ (memberLocal m ++ writeLocals ms) ++ Dpre)
                (writeDirectory ms
                   (Buffer.length Lpre + Buffer.length (memberLocal m)) ++ Q)
                m (Buffer.length Lpre) Hm ltac:(lia))
      as (Rsig & Rmethod & Rsize & Rname & Rextra & Rcomment & Roff
          & Rfit & Rtext).
    rewrite <- HArec, <- Hcrec in Rsig, Rmethod, Rsize, Rname, Rextra,
      Rcomment, Roff, Rfit, Rtext.
    (* the local header *)
    assert (HAloc :
      A = Lpre ++ memberLocal m
          ++ (writeLocals ms ++ Dpre
              ++ (memberRecord m (Buffer.length Lpre)
                  ++ writeDirectory ms
                       (Buffer.length Lpre + Buffer.length (memberLocal m)))
              ++ Q)).
    { rewrite HA. rewrite <- !app_assoc. reflexivity. }
    destruct (local_header_fields Lpre
                (writeLocals ms ++ Dpre
                 ++ (memberRecord m (Buffer.length Lpre)
                     ++ writeDirectory ms
                          (Buffer.length Lpre
                           + Buffer.length (memberLocal m)))
                 ++ Q) m Hm)
      as (Lsig & _ & _ & _ & _ & _ & Lfit).
    destruct (local_header_entry Lpre
                (writeLocals ms ++ Dpre
                 ++ (memberRecord m (Buffer.length Lpre)
                     ++ writeDirectory ms
                          (Buffer.length Lpre
                           + Buffer.length (memberLocal m)))
                 ++ Q) m Hm)
      as (_ & _ & Lslice).
    rewrite <- HAloc in Lsig, Lfit, Lslice.
    assert (Hrec : survivingRecord A c).
    { unfold survivingRecord. rewrite Roff.
      repeat split; try assumption; lia. }
    assert (Hnext : nextRecord A c =
                    c + Buffer.length (memberRecord m 0)).
    { unfold nextRecord. rewrite Rname, Rextra, Rcomment. lia. }
    assert (Hentry : dirEntry A c = memberEntry m).
    { unfold dirEntry, dirPayloadStart, memberEntry.
      rewrite Roff, Rmethod, Rsize, Rname, Rtext, Lslice. reflexivity. }
    destruct (IH (Lpre ++ memberLocal m)
                 (Dpre ++ memberRecord m (Buffer.length Lpre))
                 (c + Buffer.length (memberRecord m 0)) cdEnd)
      as [Hchain Hmap].
    + rewrite HA, length_app_Z. rewrite <- !app_assoc. reflexivity.
    + exact Hms.
    + rewrite length_app_Z. lia.
    + rewrite !length_app_Z. lia.
    + rewrite length_app_Z. lia.
    + split.
      * split; [lia |]. split; [reflexivity |]. split; [exact Hrec |].
        rewrite Hnext. exact Hchain.
      * rewrite Hentry, Hmap. reflexivity.
Qed.

Lemma indexOf_at (buf : Buffer.t) (pat : list byte) (cur : Z) :
  pat <> [] -> Buffer.occursAt pat buf cur = true ->
  Buffer.indexOf buf pat cur = cur.
Proof.
  unfold Buffer.occursAt, Buffer.indexOf. intros Hpat H.
  apply andb_true_iff in H. destruct H as [Hcur Hat].
  apply Z.leb_le in Hcur.
  destruct (Z.ltb_spec cur 0) as [Hneg | _]; [lia |].
  destruct (skipn (Z.to_nat cur) buf) as [| b l].
  - rewrite startsWith_nil in Hat by exact Hpat. discriminate Hat.
  - cbn [Buffer.indexOfFrom]. rewrite Hat. reflexivity.
Qed.

Lemma indexOf_first (buf : Buffer.t) (pat : list byte) (from h : Z) :
  pat <> [] -> 0 <= from <= h ->
  Buffer.occursAt pat buf h = true ->
  (forall p, from <= p < h -> Buffer.occursAt pat buf p = false) ->
  Buffer.indexOf buf pat from = h.
Proof.
  intros Hpat Hfrom Hat Hbefore.
  destruct (Z.eq_dec (Buffer.indexOf buf pat from) (-1)) as [Hnone | Hsome].
  - rewrite (proj1 (indexOf_none buf pat from ltac:(lia) Hpat) Hnone h)
      in Hat by lia.
    discriminate Hat.
  - destruct (indexOf_found buf pat from _ ltac:(lia) eq_refl Hsome)
      as (Hr & Hrat & Hrbefore).
    destruct (Z.lt_trichotomy (Buffer.indexOf buf pat from) h)
      as [Hlt | [Heq | Hgt]]; [| exact Heq |].
    + rewrite Hbefore in Hrat by lia. discriminate Hrat.
    + rewrite Hrbefore in Hat by lia. discriminate Hat.
Qed.

(** The fallback scan over the local headers of the members [ms], written
    after the bytes [Lpre] and followed by bytes [T] in which the signature
    does not occur. *)
Lemma fallback_walk_reads_members (A T : list byte) :
  forall (ms : list member) (Lpre : list byte),
    A = Lpre ++ writeLocals ms ++ T ->
    Forall memberFits ms ->
    (forall p, Buffer.length Lpre + Buffer.length (writeLocals ms) <= p ->
               Buffer.occursAt localSig A p = false) ->
    fallbackChain A (Buffer.length Lpre)
      (localOffsets ms (Buffer.length Lpre)) /\
    map (localEntry A) (localOffsets ms (Buffer.length Lpre))
    = map memberEntry ms.
Proof.
  induction ms as [| m ms IH]; intros Lpre HA Hfit Hafter.
  - cbn [localOffsets fallbackChain map writeLocals] in *.
    split; [| reflexivity].
    right. pose proof (length_nonneg Lpre) as HLpre.
    apply indexOf_none; [lia | exact localSig_nonempty |].
    intros p Hp. apply Hafter. change (Buffer.length []) with 0. lia.
  - cbn [localOffsets fallbackChain map writeLocals] in *.
    apply Forall_cons_iff in Hfit. destruct Hfit as [Hm Hms].
    pose proof (length_nonneg Lpre) as HLpre.
    pose proof (length_nonneg (writeLocals ms)) as HLms.
    pose proof (length_nonneg T) as HT.
    pose proof (memberLocal_length m) as HlocLen.
    pose proof (length_nonneg (mData m)) as HD.
    pose proof (length_nonneg (mLocalExtra m)) as HLX.
    assert (HA' : A = Lpre ++ memberLocal m ++ (writeLocals ms ++ T)).
    { rewrite HA, <- !app_assoc. reflexivity. }
    destruct (local_header_fields Lpre (writeLocals ms ++ T) m Hm)
      as (_ & Lat & _ & _ & _ & _ & Lfit).
    destruct (local_header_entry Lpre (writeLocals ms ++ T) m Hm)
      as (Lentry & Lend & _).
    rewrite <- HA' in Lat, Lfit, Lentry, Lend.
    rewrite length_app_Z in Hafter.
    destruct (IH (Lpre ++ memberLocal m)) as [Hchain Hmap].
    + rewrite HA, <- !app_assoc. reflexivity.
    + exact Hms.
    + intros p Hp. apply Hafter. rewrite length_app_Z in Hp. lia.
    + rewrite length_app_Z in Hchain, Hmap.
      split.
      * split; [lia |].
        split; [exact (indexOf_at _ _ _ localSig_nonempty Lat) |].
        split; [lia |]. split; [lia |].
        rewrite Lend. exact Hchain.
      * rewrite Lentry, Hmap. reflexivity.
Qed.

Lemma writeArchive_eocd (ms : list member) :
  Buffer.length (writeLocals ms) < 2 ^ 32 ->
  Buffer.length (writeDirectory ms 0) < 2 ^ 32 ->
  let A := writeArchive ms in
  findEocd A
  = Buffer.length (writeLocals ms) + Buffer.length (writeDirectory ms 0) /\
  u32 A (findEocd A + 16) = Buffer.length (writeLocals ms) /\
  u32 A (findEocd A + 12) = Buffer.length (writeDirectory ms 0).
Proof.
  intros HL HD A.
  pose proof (length_nonneg (writeLocals ms)) as HL0.
  pose proof (length_nonneg (writeDirectory ms 0)) as HD0.
  set (rec := eocdRecord (Z.of_nat (List.length ms))
                (Buffer.length (writeDirectory ms 0))
                (Buffer.length (writeLocals ms)) "").
  assert (HA : A = (writeLocals ms ++ writeDirectory ms 0) ++ rec).
  { unfold A, writeArchive. rewrite <- app_assoc. reflexivity. }
  assert (Hpre : Buffer.length (writeLocals ms ++ writeDirectory ms 0)
                 = Buffer.length (writeLocals ms)
                   + Buffer.length (writeDirectory ms 0)).
  { apply length_app_Z. }
  assert (Hlen : Buffer.length A
                 = Buffer.length (writeLocals ms)
                   + Buffer.length (writeDirectory ms 0) + 22).
  { rewrite HA, length_app_Z, Hpre. reflexivity. }
  assert (Hsig : isEocdSig A (Buffer.length (writeLocals ms)
                              + Buffer.length (writeDirectory ms 0)) = true).
  { rewrite <- Hpre, HA.
    exact (isEocdSig_after_prefix (writeLocals ms ++ writeDirectory ms 0) _). }
  assert (Hfind : findEocd A
                  = Buffer.length (writeLocals ms)
                    + Buffer.length (writeDirectory ms 0)).
  { pose proof (scanStartOf_nonneg A) as Hs.
    assert (Hstart : scanStartOf A <= Buffer.length A - 22).
    { unfold scanStartOf, maxCommentLength. lia. }
    destruct (findEocd_spec A) as [[_ Hall] | (Hr & _ & Hall)].
    - rewrite Hall in Hsig by lia. discriminate Hsig.
    - destruct (Z.eq_dec (findEocd A)
                  (Buffer.length (writeLocals ms)
                   + Buffer.length (writeDirectory ms 0))) as [Heq | Hne];
        [exact Heq |].
      rewrite Hall in Hsig by lia. discriminate Hsig. }
  split; [exact Hfind |].
  rewrite Hfind, <- Hpre, HA. split.
  - apply readUInt32LE_u32. etransitivity;
      [exact (read32_in_suffix (writeLocals ms ++ writeDirectory ms 0) rec
                _ 16 _ _ _ _ eq_refl) |].
    f_equal. apply le32_value. lia.
  - apply readUInt32LE_u32. etransitivity;
      [exact (read32_in_suffix (writeLocals ms ++ writeDirectory ms 0) rec
                _ 12 _ _ _ _ eq_refl) |].
    f_equal. apply le32_value. lia.
Qed.

Lemma recordOffsets_length (ms : list member) :
  forall c, List.length (recordOffsets ms c) = List.length ms.
Proof.
  induction ms as [| m ms IH]; intros c; cbn; [reflexivity |].
  rewrite IH. reflexivity.
Qed.

Lemma localOffsets_length (ms : list member) :
  forall h, List.length (localOffsets ms h) = List.length ms.
Proof.
  induction ms as [| m ms IH]; intros h; cbn; [reflexivity |].
  rewrite IH. reflexivity.
Qed.

(** X9.  Reading back a written archive: for members whose fields fit the
    header widths, with local part and directory below 4 GiB, the
    constructor returns on the written archive, and its entries are those of
    the members in order, each with the decoded name, the method and the
    payload of its member, whatever the payloads contain. *)
Theorem reads_back_written_archive (fuel : nat) (ms : list member) :
  Forall memberFits ms ->
  Buffer.length (writeLocals ms) < 2 ^ 32 ->
  Buffer.length (writeDirectory ms 0) < 2 ^ 32 ->
  (List.length ms < fuel)%nat ->
  Unzipper_constructor fuel (writeArchive ms) =
  Some (Ret {| entries := map memberEntry ms |}).
Proof.
  intros Hfit HL HD Hfuel.
  destruct (writeArchive_eocd ms HL HD) as (Hfind & H16 & H12).
  pose proof (length_nonneg (writeLocals ms)) as HL0.
  pose proof (length_nonneg (writeDirectory ms 0)) as HD0.
  destruct (dir_walk_reads_members (writeArchive ms)
              (eocdRecord (Z.of_nat (List.length ms))
                 (Buffer.length (writeDirectory ms 0))
                 (Buffer.length (writeLocals ms)) "")
              ms [] [] (Buffer.length (writeLocals ms))
              (Buffer.length (writeLocals ms)
               + Buffer.length (writeDirectory ms 0)))
    as [Hchain Hmap];
    [ reflexivity | exact Hfit
    | change (Buffer.length []) with 0; lia
    | change (Buffer.length []) with 0; lia
    | change (Buffer.length []) with 0; reflexivity | ].
  rewrite (constructor_complete fuel (writeArchive ms)
             (map FromDirectory
                (recordOffsets ms (Buffer.length (writeLocals ms))))).
  - rewrite map_map, <- Hmap. reflexivity.
  - unfold visited.
    destruct (Z.eqb_spec (findEocd (writeArchive ms)) (-1)) as [Heq | _];
      [lia |].
    rewrite H16, H12.
    eexists. split; [reflexivity | exact Hchain].
  - rewrite length_map, recordOffsets_length. exact Hfuel.
Qed.

(** X10.  Recovering the local part: on a file made of leading bytes [J],
    the members' local headers and payloads, and trailing bytes [T] (a cut
    directory, say), in which the EOCD scan finds nothing and the
    local-header signature occurs neither before the first header nor at or
    after the end of the last payload, the constructor returns the entries
    of the members in order, whatever the payloads contain. *)
Theorem fallback_recovers_local_part (fuel : nat) (ms : list member)
    (J T : list byte) :
  let A := J ++ writeLocals ms ++ T in
  Forall memberFits ms ->
  findEocd A = -1 ->
  (forall p, p < Buffer.length J -> Buffer.occursAt localSig A p = false) ->
  (forall p, Buffer.length J + Buffer.length (writeLocals ms) <= p ->
             Buffer.occursAt localSig A p = false) ->
  (List.length ms < fuel)%nat ->
  Unzipper_constructor fuel A =
  Some (Ret {| entries := map memberEntry ms |}).
Proof.
  intros A Hfit Heocd Hbefore Hafter Hfuel.
  pose proof (length_nonneg J) as HJ.
  destruct (fallback_walk_reads_members A T ms J eq_refl Hfit Hafter)
    as [Hchain Hmap].
  assert (Hchain0 : fallbackChain A 0 (localOffsets ms (Buffer.length J))).
  { destruct ms as [| m ms]; cbn [localOffsets fallbackChain] in *.
    - right. apply indexOf_none; [lia | exact localSig_nonempty |].
      intros p Hp.
      destruct (Z.lt_ge_cases p (Buffer.length J)) as [Hlt | Hge];
        [apply Hbefore; exact Hlt |].
      apply Hafter. change (Buffer.length (writeLocals [])) with 0. lia.
    - destruct Hchain as (Hlt & Hidx & Hne & Hin & Hrest).
      pose proof (indexOf_found A localSig _ _ HJ Hidx Hne) as (_ & Hat & _).
      split; [lia |]. split.
      + apply indexOf_first;
          [exact localSig_nonempty | lia | exact Hat |].
        intros p Hp. apply Hbefore. lia.
      + split; [exact Hne |]. split; [exact Hin | exact Hrest]. }
  rewrite (constructor_complete fuel A
             (map FromLocal (localOffsets ms (Buffer.length J)))).
  - rewrite map_map, <- Hmap. reflexivity.
  - unfold visited. rewrite Heocd. cbn [Z.eqb Pos.eqb].
    eexists. split; [reflexivity | exact Hchain0].
  - rewrite length_map, localOffsets_length. exact Hfuel.
Qed.

End ReadBack.

(** ** Worked examples for the further properties *)

Ltac closed_fact :=
  vm_compute; first [reflexivity | discriminate | (intro; discriminate)].

Lemma fallback_mode_terminates_witness :
  findEocd truncatedArchive = -1 /\
  (Z.to_nat (Buffer.length truncatedArchive) < 34)%nat /\
  ((exists u, Unzipper_constructor 34 truncatedArchive = Some (Ret u)) \/
   Unzipper_constructor 34 truncatedArchive = Some (Throw RangeError)).
Proof.
  assert (H1 : findEocd truncatedArchive = -1) by closed_fact.
  assert (H2 : (Z.to_nat (Buffer.length truncatedArchive) < 34)%nat)
    by (vm_compute; lia).
  split; [exact H1 |]. split; [exact H2 |].
  exact (fallback_mode_terminates 34 truncatedArchive H1 H2).
Defined.

Lemma constructor_has_one_outcome_or_none_witness :
  (exists fuel0 r,
      forall fuel, (fuel0 <= fuel)%nat ->
                   Unzipper_constructor fuel loopArchive = Some r) \/
  ((forall fuel, Unzipper_constructor fuel loopArchive = None) /\
   findEocd loopArchive <> -1 /\
   exists c v,
     u32 loopArchive (findEocd loopArchive + 16) <= c
     < u32 loopArchive (findEocd loopArchive + 16)
       + u32 loopArchive (findEocd loopArchive + 12) /\
     hasSig loopArchive c 0x02014b50 /\
     Buffer.readUInt32LE loopArchive (u32 loopArchive (c + 42)) = Ret v /\
     v <> 0x04034b50).
Proof.
  exact (constructor_has_one_outcome_or_none loopArchive).
Defined.

Lemma truncated_local_header_throws_witness :
  findEocd cutArchive = -1 /\
  fallbackReaches cutArchive 0 [0] 33 /\
  33 < Buffer.length cutArchive - 4 /\
  Buffer.indexOf cutArchive localSig 33 = 33 /\
  33 <> -1 /\
  Buffer.length cutArchive < 33 + 30 /\
  (List.length [0] < 2)%nat /\
  Unzipper_constructor 2 cutArchive = Some (Throw RangeError).
Proof.
  assert (H1 : findEocd cutArchive = -1) by closed_fact.
  assert (H2 : fallbackReaches cutArchive 0 [0] 33)
    by (cbn [fallbackReaches]; repeat split; closed_fact).
  assert (H3 : 33 < Buffer.length cutArchive - 4) by closed_fact.
  assert (H4 : Buffer.indexOf cutArchive localSig 33 = 33) by closed_fact.
  assert (H5 : 33 <> -1) by discriminate.
  assert (H6 : Buffer.length cutArchive < 33 + 30) by closed_fact.
  assert (H7 : (List.length [0] < 2)%nat) by (cbn; lia).
  repeat (split; [assumption |]).
  exact (truncated_local_header_throws 2 cutArchive [0] 33 33
           H1 H2 H3 H4 H5 H6 H7).
Defined.

Lemma damaged_directory_record_throws_witness :
  findEocd outsideArchive <> -1 /\
  dirReaches outsideArchive
    (u32 outsideArchive (findEocd outsideArchive + 16)
     + u32 outsideArchive (findEocd outsideArchive + 12))
    (u32 outsideArchive (findEocd outsideArchive + 16)) [] 33 /\
  33 < u32 outsideArchive (findEocd outsideArchive + 16)
       + u32 outsideArchive (findEocd outsideArchive + 12) /\
  (Buffer.length outsideArchive < 33 + 4 \/
   (hasSig outsideArchive 33 0x02014b50 /\
    (Buffer.length outsideArchive < 33 + 46 \/
     Buffer.length outsideArchive < u32 outsideArchive (33 + 42) + 4 \/
     (hasSig outsideArchive (u32 outsideArchive (33 + 42)) 0x04034b50 /\
      Buffer.length outsideArchive
      < u32 outsideArchive (33 + 42) + 30)))) /\
  (List.length (@nil Z) < 1)%nat /\
  Unzipper_constructor 1 outsideArchive = Some (Throw RangeError).
Proof.
  assert (H1 : findEocd outsideArchive <> -1) by closed_fact.
  assert (H2 : dirReaches outsideArchive
                 (u32 outsideArchive (findEocd outsideArchive + 16)
                  + u32 outsideArchive (findEocd outsideArchive + 12))
                 (u32 outsideArchive (findEocd outsideArchive + 16)) [] 33)
    by closed_fact.
  assert (H3 : 33 < u32 outsideArchive (findEocd outsideArchive + 16)
                    + u32 outsideArchive (findEocd outsideArchive + 12))
    by closed_fact.
  assert (H4 :
    Buffer.length outsideArchive < 33 + 4 \/
    (hasSig outsideArchive 33 0x02014b50 /\
     (Buffer.length outsideArchive < 33 + 46 \/
      Buffer.length outsideArchive < u32 outsideArchive (33 + 42) + 4 \/
      (hasSig outsideArchive (u32 outsideArchive (33 + 42)) 0x04034b50 /\
       Buffer.length outsideArchive
       < u32 outsideArchive (33 + 42) + 30)))).
  { right. split; [closed_fact |]. right. left. closed_fact. }
  assert (H5 : (List.length (@nil Z) < 1)%nat) by (cbn; lia).
  repeat (split; [assumption |]).
  exact (damaged_directory_record_throws 1 outsideArchive [] 33
           H1 H2 H3 H4 H5).
Defined.

Lemma empty_or_unsigned_directory_lists_nothing_witness :
  findEocd emptyDirectoryArchive <> -1 /\
  Buffer.occursAt localSig emptyDirectoryArchive 0 = true /\
  (u32 emptyDirectoryArchive (findEocd emptyDirectoryArchive + 12) = 0 \/
   (exists v,
       Buffer.readUInt32LE emptyDirectoryArchive
         (u32 emptyDirectoryArchive (findEocd emptyDirectoryArchive + 16))
       = Ret v /\
       v <> 0x02014b50)) /\
  (0 < 1)%nat /\
  exists u,
    Unzipper_constructor 1 emptyDirectoryArchive = Some (Ret u) /\
    getEntries u = [].
Proof.
  assert (H1 : findEocd emptyDirectoryArchive <> -1) by closed_fact.
  assert (H2 :
    u32 emptyDirectoryArchive (findEocd emptyDirectoryArchive + 12) = 0 \/
    (exists v,
        Buffer.readUInt32LE emptyDirectoryArchive
          (u32 emptyDirectoryArchive (findEocd emptyDirectoryArchive + 16))
        = Ret v /\
        v <> 0x02014b50)) by (left; closed_fact).
  assert (H3 : (0 < 1)%nat) by lia.
  split; [exact H1 |]. split; [closed_fact |].
  split; [exact H2 |]. split; [exact H3 |].
  exact (empty_or_unsigned_directory_lists_nothing 1 emptyDirectoryArchive
           H1 H2 H3).
Defined.

Lemma entry_count_is_bounded_witness :
  Unzipper_constructor 4 scenarioArchive =
    Some (Ret {| entries :=
                   map (entryOf scenarioArchive)
                     [FromDirectory 139; FromDirectory 189;
                      FromDirectory 244] |}) /\
  (30 * 3 <= Buffer.length scenarioArchive /\
   (findEocd scenarioArchive <> -1 -> 0 < 3 ->
    u32 scenarioArchive (findEocd scenarioArchive + 16) + 46 * 3
    <= Buffer.length scenarioArchive /\
    46 * (3 - 1) < u32 scenarioArchive (findEocd scenarioArchive + 12))).
Proof.
  assert (H : Unzipper_constructor 4 scenarioArchive =
              Some (Ret {| entries :=
                             map (entryOf scenarioArchive)
                               [FromDirectory 139; FromDirectory 189;
                                FromDirectory 244] |}))
    by (vm_compute; reflexivity).
  split; [exact H |].
  exact (entry_count_is_bounded 4 scenarioArchive _ H).
Defined.

Lemma entry_name_comes_from_inside_the_buffer_witness :
  Unzipper_constructor 4 scenarioArchive =
    Some (Ret {| entries :=
                   map (entryOf scenarioArchive)
                     [FromDirectory 139; FromDirectory 189;
                      FromDirectory 244] |}) /\
  exists os,
    map (entryOf scenarioArchive)
      [FromDirectory 139; FromDirectory 189; FromDirectory 244]
    = map (entryOf scenarioArchive) os /\
    Forall
      (fun o =>
         intact scenarioArchive o /\
         let start := nameStartOf o in
         let n := nameLengthOf scenarioArchive o in
         let len := Buffer.length scenarioArchive in
         0 <= start <= len /\
         (n = 0 \/ start = len ->
          entryName (entryOf scenarioArchive o) = EmptyString /\
          isDirectory (entryOf scenarioArchive o) = false) /\
         (0 < n -> start < len ->
          entryName (entryOf scenarioArchive o) =
            utf8Slice
              (Buffer.window scenarioArchive start (Z.min (start + n) len)) /\
          Buffer.length
            (Buffer.window scenarioArchive start (Z.min (start + n) len)) =
            Z.min n (len - start)))
      os.
Proof.
  assert (H : Unzipper_constructor 4 scenarioArchive =
              Some (Ret {| entries :=
                             map (entryOf scenarioArchive)
                               [FromDirectory 139; FromDirectory 189;
                                FromDirectory 244] |}))
    by (vm_compute; reflexivity).
  split; [exact H |].
  exact (entry_name_comes_from_inside_the_buffer 4 scenarioArchive _ H).
Defined.

Lemma reads_back_written_archive_witness :
  Forall memberFits sampleMembers /\
  Buffer.length (writeLocals sampleMembers) < 2 ^ 32 /\
  Buffer.length (writeDirectory sampleMembers 0) < 2 ^ 32 /\
  (List.length sampleMembers < 3)%nat /\
  Unzipper_constructor 3 (writeArchive sampleMembers) =
    Some (Ret {| entries := map memberEntry sampleMembers |}).
Proof.
  assert (H1 : Forall memberFits sampleMembers)
    by (repeat constructor; closed_fact).
  assert (H2 : Buffer.length (writeLocals sampleMembers) < 2 ^ 32)
    by closed_fact.
  assert (H3 : Buffer.length (writeDirectory sampleMembers 0) < 2 ^ 32)
    by closed_fact.
  assert (H4 : (List.length sampleMembers < 3)%nat) by (cbn; lia).
  repeat (split; [assumption |]).
  exact (reads_back_written_archive 3 sampleMembers H1 H2 H3 H4).
Defined.

Lemma fallback_recovers_local_part_witness :
  Forall memberFits sampleMembers /\
  findEocd (ascii_bytes "#!stub" ++ writeLocals sampleMembers
            ++ [x50; x4b; x01; x02; x14; x00]) = -1 /\
  (forall p, p < Buffer.length (ascii_bytes "#!stub") ->
     Buffer.occursAt localSig
       (ascii_bytes "#!stub" ++ writeLocals sampleMembers
        ++ [x50; x4b; x01; x02; x14; x00]) p = false) /\
  (forall p,
     Buffer.length (ascii_bytes "#!stub")
     + Buffer.length (writeLocals sampleMembers) <= p ->
     Buffer.occursAt localSig
       (ascii_bytes "#!stub" ++ writeLocals sampleMembers
        ++ [x50; x4b; x01; x02; x14; x00]) p = false) /\
  (List.length sampleMembers < 3)%nat /\
  Unzipper_constructor 3
    (ascii_bytes "#!stub" ++ writeLocals sampleMembers
     ++ [x50; x4b; x01; x02; x14; x00]) =
    Some (Ret {| entries := map memberEntry sampleMembers |}).
Proof.
  assert (H1 : Forall memberFits sampleMembers)
    by (repeat constructor; closed_fact).
  assert (H2 : findEocd (ascii_bytes "#!stub" ++ writeLocals sampleMembers
                         ++ [x50; x4b; x01; x02; x14; x00]) = -1)
    by closed_fact.
  assert (H3 : forall p, p < Buffer.length (ascii_bytes "#!stub") ->
     Buffer.occursAt localSig
       (ascii_bytes "#!stub" ++ writeLocals sampleMembers
        ++ [x50; x4b; x01; x02; x14; x00]) p = false).
  { intros p Hp. destruct (Z.lt_ge_cases p 0) as [Hneg | Hpos].
    - unfold Buffer.occursAt.
      destruct (Z.leb_spec 0 p); [lia | reflexivity].
    - refine (proj2 (proj2 (indexOf_found _ localSig 0 6 (Z.le_refl 0)
                              _ _)) p _);
        [closed_fact | discriminate | split; [exact Hpos | exact Hp]]. }
  assert (H4 : forall p,
     Buffer.length (ascii_bytes "#!stub")
     + Buffer.length (writeLocals sampleMembers) <= p ->
     Buffer.occursAt localSig
       (ascii_bytes "#!stub" ++ writeLocals sampleMembers
        ++ [x50; x4b; x01; x02; x14; x00]) p = false).
  { intros p Hp.
    refine (proj1 (indexOf_none _ localSig
                     (Buffer.length (ascii_bytes "#!stub")
                      + Buffer.length (writeLocals sampleMembers))
                     _ localSig_nonempty) _ p Hp);
      closed_fact. }
  assert (H5 : (List.length sampleMembers < 3)%nat) by (cbn; lia).
  repeat (split; [assumption |]).
  exact (fallback_recovers_local_part 3 sampleMembers _ _ H1 H2 H3 H4 H5).
Defined.
